(** * Read leases of the gcsfuse lease package ([lease/read_lease.go])

    A shallow embedding of [readLease] and of the operations of the
    [ReadLease] interface.  Leases and leasers live in a store indexed by
    addresses, because the program shares them through pointers: the leaser
    keeps [*readLease] values in its LRU list while clients call methods on
    the same objects.  Every operation is a state transformer over that
    store, the state of the temporary files, and a log of the lock and file
    events the operation performs. *)

From stdpp Require Import base option list gmap strings.
From Stdlib Require Import ZArith.
From Stdlib.Strings Require Import Byte.

(** ** Data *)

(** Addresses of heap objects ([*readLease], [*fileLeaser]).  An address
    that the store does not map plays the role of a nil or dangling pointer:
    dereferencing it panics. *)
Definition addr := positive.

(** A non-nil [*os.File].  The field [file *os.File] is compared with [nil]
    by the code, so it is an [option File]. *)
Definition File := positive.

(** An error value produced by the file layer, identified by its message.
    The file layer cannot produce a [RevokedError]: that type belongs to
    the lease package. *)
Definition os_error := string.

(** Go's [error] values that can reach a caller of a read lease: a
    [&RevokedError{}] made by the lease, or the value the file layer
    produced, carried as it is. *)
Inductive error : Type :=
  | RevokedError
  | OsError (e : os_error).

(** [func (re *RevokedError) Error() string] *)
Definition Error (re : error) : string :=
  match re with
  | RevokedError => "Lease revoked"
  | OsError e => e
  end.

(** The methods of [*os.File] the leases call.  [os.File] is the external
    temporary-file layer; its behaviour is a parameter.  A byte slice
    argument is returned with the contents the call left in it. *)
Class FileOps (FS : Type) := {
  os_Read : File → list byte → FS → (list byte * Z * option os_error) * FS;
  os_Seek : File → Z → Z → FS → (Z * option os_error) * FS;
  os_ReadAt : File → list byte → Z → FS → (list byte * Z * option os_error) * FS;
  os_Close : File → FS → FS
}.

(** The answer of the file layer as the Go caller receives it: the values
    unchanged, the error as an [error] interface value. *)
Definition as_error {A FS} (r : (A * option os_error) * FS) : (A * option error) * FS :=
  ((r.1.1, OsError <$> r.1.2), r.2).

(** Arithmetic on [int64] wraps around. *)
Definition wrap64 (z : Z) : Z := ((z + 2 ^ 63) mod 2 ^ 64 - 2 ^ 63)%Z.
Global Arguments wrap64 z : simpl never.

(** [type readLease struct].  [rl_Mu] is [true] while the mutex is held. *)
Record readLease := mkReadLease {
  rl_Mu : bool;
  rl_size : Z;
  rl_leaser : addr;
  rl_file : option File
}.

(** Modelled from the spec: the [fileLeaser] struct is not part of the
    source at hand.  Section 3 of the specification gives the Lease Pool a
    lock, a byte limit, the bytes in use and the LRU sequence of the tracked
    read leases; the most recently used lease is the last element. *)
Record fileLeaser := mkFileLeaser {
  fl_mu : bool;
  byteLimit : Z;
  usedBytes : Z;
  lruList : list addr
}.

(** Modelled from the spec: a Write Lease owns a file, has a current size
    and remembers the Pool it rejoins on downgrade. *)
Record readWriteLease := mkReadWriteLease {
  rwl_leaser : addr;
  rwl_size : Z;
  rwl_file : option File
}.

(** The two mutexes of the locking protocol. *)
Inductive mutex : Type :=
  | LeaseMu (rl : addr)
  | PoolMu (fl : addr).

(** What an operation does that an observer of the locking protocol or of
    the file layer can see, in program order. *)
Inductive event : Type :=
  | EvLock (m : mutex)
  | EvUnlock (m : mutex)
  | EvPromote (fl rl : addr)
  | EvFileRead (f : File)
  | EvFileSeek (f : File)
  | EvFileReadAt (f : File)
  | EvFileClose (f : File).

Global Instance mutex_eq_dec : EqDecision mutex.
Proof. solve_decision. Defined.

Global Instance error_eq_dec : EqDecision error.
Proof. solve_decision. Defined.

Definition is_file_event (e : event) : bool :=
  match e with
  | EvFileRead _ | EvFileSeek _ | EvFileReadAt _ | EvFileClose _ => true
  | _ => false
  end.

Definition is_lock_event (e : event) : bool :=
  match e with
  | EvLock _ => true
  | _ => false
  end.

Definition is_pool_event (e : event) : bool :=
  match e with
  | EvPromote _ _ | EvLock (PoolMu _) | EvUnlock (PoolMu _) => true
  | _ => false
  end.

Definition is_lease_lock (rl : addr) (e : event) : bool :=
  match e with
  | EvLock (LeaseMu rl') => bool_decide (rl' = rl)
  | _ => false
  end.

(** ** An in-memory file layer

    A small instance of [FileOps], used to run the embedding on concrete
    inputs: a file is its contents and a cursor. *)

Record memfile := mkMemfile {
  mf_data : list byte;
  mf_pos : Z
}.

Definition mem_read_at (data p : list byte) (pos : Z) : list byte * Z * option os_error :=
  let chunk := take (length p) (drop (Z.to_nat pos) data) in
  match chunk, p with
  | [], _ :: _ => (p, 0%Z, Some "EOF")
  | _, _ => (chunk ++ drop (length chunk) p, Z.of_nat (length chunk), None)
  end.

Definition mem_Read (f : File) (p : list byte) (w : gmap File memfile)
  : (list byte * Z * option os_error) * gmap File memfile :=
  match w !! f with
  | None => ((p, 0%Z, Some "file already closed"), w)
  | Some mf =>
      let r := mem_read_at (mf_data mf) p (mf_pos mf) in
      (r, <[f := mkMemfile (mf_data mf) (mf_pos mf + r.1.2)%Z]> w)
  end.

Definition mem_Seek (f : File) (offset whence : Z) (w : gmap File memfile)
  : (Z * option os_error) * gmap File memfile :=
  match w !! f with
  | None => ((0%Z, Some "file already closed"), w)
  | Some mf =>
      let base :=
        if (whence =? 0)%Z then 0%Z
        else if (whence =? 1)%Z then mf_pos mf
        else Z.of_nat (length (mf_data mf)) in
      let target := (base + offset)%Z in
      if (target <? 0)%Z then ((0%Z, Some "invalid argument"), w)
      else ((target, None), <[f := mkMemfile (mf_data mf) target]> w)
  end.

Definition mem_ReadAt (f : File) (p : list byte) (off : Z) (w : gmap File memfile)
  : (list byte * Z * option os_error) * gmap File memfile :=
  match w !! f with
  | None => ((p, 0%Z, Some "file already closed"), w)
  | Some mf =>
      if (off <? 0)%Z then ((p, 0%Z, Some "negative offset"), w)
      else (mem_read_at (mf_data mf) p off, w)
  end.

Definition memfs : FileOps (gmap File memfile) := {|
  os_Read := mem_Read;
  os_Seek := mem_Seek;
  os_ReadAt := mem_ReadAt;
  os_Close := λ f w, delete f w
|}.

(** ** The state monad of the embedding *)

Section Lease.
Context {FS : Type} {file_layer : FileOps FS}.

(** The store of leases, the store of leasers, the state of the file layer
    and the log of events, oldest first. *)
Record State := mkState {
  leases : gmap addr readLease;
  leasers : gmap addr fileLeaser;
  fs : FS;
  trace : list event
}.

(** A call returns, panics, or blocks for ever on a mutex that is held.
    Each outcome carries the state reached. *)
Inductive outcome (A : Type) : Type :=
  | Returns (a : A) (s : State)
  | Panics (msg : string) (s : State)
  | Blocks (s : State).
Global Arguments Returns {A} a s.
Global Arguments Panics {A} msg s.
Global Arguments Blocks {A} s.

Definition final {A} (o : outcome A) : State :=
  match o with
  | Returns _ s | Panics _ s | Blocks s => s
  end.

Definition M (A : Type) : Type := State → outcome A.

Definition ret {A} (a : A) : M A := λ s, Returns a s.

Definition bind {A B} (m : M A) (k : A → M B) : M B := λ s,
  match m s with
  | Returns a s' => k a s'
  | Panics msg s' => Panics msg s'
  | Blocks s' => Blocks s'
  end.

Declare Scope lease_scope.
Delimit Scope lease_scope with lease.
Notation "x ← y ; z" := (bind y (λ x : _, z))
  (at level 20, y at level 100, z at level 200, only parsing) : lease_scope.
Notation "x ;; z" := (bind x (λ _, z))
  (at level 100, z at level 200, only parsing, right associativity) : lease_scope.
Local Open Scope lease_scope.

Definition panic {A} (msg : string) : M A := λ s, Panics msg s.

(** [defer d] followed by [body]: [d] runs when [body] returns and also
    when it panics. *)
Definition defer {A} (d : M unit) (body : M A) : M A := λ s,
  match body s with
  | Returns a s1 =>
      match d s1 with
      | Returns _ s2 => Returns a s2
      | Panics msg s2 => Panics msg s2
      | Blocks s2 => Blocks s2
      end
  | Panics msg s1 =>
      match d s1 with
      | Returns _ s2 => Panics msg s2
      | Panics msg' s2 => Panics msg' s2
      | Blocks s2 => Blocks s2
      end
  | Blocks s1 => Blocks s1
  end.

Definition nil_deref : string := "invalid memory address or nil pointer dereference".

Definition emit (e : event) : M unit := λ s,
  Returns () (mkState (leases s) (leasers s) (fs s) (trace s ++ [e])).

Definition load_lease (rl : addr) : M readLease := λ s,
  match leases s !! rl with
  | Some l => Returns l s
  | None => Panics nil_deref s
  end.

Definition store_lease (rl : addr) (l : readLease) : M unit := λ s,
  Returns () (mkState (<[rl := l]> (leases s)) (leasers s) (fs s) (trace s)).

Definition load_leaser (fl : addr) : M fileLeaser := λ s,
  match leasers s !! fl with
  | Some p => Returns p s
  | None => Panics nil_deref s
  end.

Definition store_leaser (fl : addr) (p : fileLeaser) : M unit := λ s,
  Returns () (mkState (leases s) (<[fl := p]> (leasers s)) (fs s) (trace s)).

(** [sync.Mutex]: [Lock] on a held mutex never returns; [Unlock] of a free
    mutex is a fatal error. *)
Definition Mu_Lock (rl : addr) : M unit :=
  l ← load_lease rl;
  if rl_Mu l then (λ s, Blocks s)
  else
    store_lease rl (mkReadLease true (rl_size l) (rl_leaser l) (rl_file l));;
    emit (EvLock (LeaseMu rl)).

Definition Mu_Unlock (rl : addr) : M unit :=
  l ← load_lease rl;
  if rl_Mu l then
    store_lease rl (mkReadLease false (rl_size l) (rl_leaser l) (rl_file l));;
    emit (EvUnlock (LeaseMu rl))
  else panic "sync: unlock of unlocked mutex".

Definition mu_Lock (fl : addr) : M unit :=
  p ← load_leaser fl;
  if fl_mu p then (λ s, Blocks s)
  else
    store_leaser fl (mkFileLeaser true (byteLimit p) (usedBytes p) (lruList p));;
    emit (EvLock (PoolMu fl)).

Definition mu_Unlock (fl : addr) : M unit :=
  p ← load_leaser fl;
  if fl_mu p then
    store_leaser fl (mkFileLeaser false (byteLimit p) (usedBytes p) (lruList p));;
    emit (EvUnlock (PoolMu fl))
  else panic "sync: unlock of unlocked mutex".

(** A call into the file layer: [g] is what the layer does to its state
    and answers, [ev] the entry in the log. *)
Definition file_call {A} (g : FS → A * FS) (ev : event) : M A := λ s,
  let '(r, w) := g (fs s) in
  Returns r (mkState (leases s) (leasers s) w (trace s ++ [ev])).

Definition file_Read (f : File) (p : list byte) : M (list byte * Z * option error) :=
  file_call (λ w, as_error (os_Read f p w)) (EvFileRead f).

Definition file_Seek (f : File) (offset whence : Z) : M (Z * option error) :=
  file_call (λ w, as_error (os_Seek f offset whence w)) (EvFileSeek f).

Definition file_ReadAt (f : File) (p : list byte) (off : Z) : M (list byte * Z * option error) :=
  file_call (λ w, as_error (os_ReadAt f p off w)) (EvFileReadAt f).

Definition file_Close (f : File) : M unit :=
  file_call (λ w, ((), os_Close f w)) (EvFileClose f).

(** ** Helpers of [read_lease.go] *)

(** [func (rl *readLease) revoked() bool] *)
Definition revoked (rl : addr) : M bool :=
  l ← load_lease rl;
  ret (bool_decide (rl_file l = None)).

(** [func (rl *readLease) release() (file *os.File)] *)
Definition release (rl : addr) : M (option File) :=
  r ← revoked rl;
  if r then panic "Already revoked"
  else
    l ← load_lease rl;
    let file := rl_file l in
    store_lease rl (mkReadLease (rl_Mu l) (rl_size l) (rl_leaser l) None);;
    ret file.

(** [func newReadLease(size int64, leaser *fileLeaser, file *os.File)]:
    a new object at an address no lease occupies, its mutex free. *)
Definition newReadLease (size : Z) (leaser : addr) (file : option File) : M addr := λ s,
  let rl := fresh (dom (leases s)) in
  Returns rl (mkState (<[rl := mkReadLease false size leaser file]> (leases s))
                      (leasers s) (fs s) (trace s)).

(** ** Public interface of [readLease] *)

(** [func (rl *readLease) Size() (size int64)].  No lock necessary. *)
Definition Size (rl : addr) : M Z :=
  l ← load_lease rl;
  ret (rl_size l).

(** Modelled from the spec: [fileLeaser.promoteToMostRecent] is not part of
    the source at hand.  Section 4.3: under the Pool lock only, if [rl] is
    still tracked, move its LRU node to the most-recently-used end; no-op if
    the lease is no longer tracked. *)
Definition promoteToMostRecent (fl rl : addr) : M unit :=
  emit (EvPromote fl rl);;
  mu_Lock fl;;
  defer (mu_Unlock fl)
    (p ← load_leaser fl;
     if bool_decide (rl ∈ lruList p) then
       store_leaser fl
         (mkFileLeaser (fl_mu p) (byteLimit p) (usedBytes p)
            (filter (λ x, x ≠ rl) (lruList p) ++ [rl]))
     else ret ()).

(** Modelled from the spec: [fileLeaser.upgrade] is not part of the source
    at hand.  Section 4.3: under the Pool lock, if [rl] is absent from the
    tracked set fail with the revoked-error marker; otherwise remove it from
    the LRU list, decrement the bytes in use by its size, release the Pool
    lock, then take the lease's internal release operation (under the lease
    lock) to obtain its file, wrap that file in a new Write Lease, and
    return it. *)
Definition upgrade (fl rl : addr) : M (option readWriteLease * option error) :=
  mu_Lock fl;;
  p ← load_leaser fl;
  if bool_decide (rl ∈ lruList p) then
    size ← Size rl;
    store_leaser fl
      (mkFileLeaser (fl_mu p) (byteLimit p) (wrap64 (usedBytes p - size))
         (filter (λ x, x ≠ rl) (lruList p)));;
    mu_Unlock fl;;
    Mu_Lock rl;;
    file ← defer (Mu_Unlock rl) (release rl);
    ret (Some (mkReadWriteLease fl size file), None)
  else
    mu_Unlock fl;;
    ret (None, Some RevokedError).

(** Modelled from the spec: [fileLeaser.revokeVoluntarily] is not part of
    the source at hand.  Section 4.3: under the Pool lock, if tracked,
    remove from the LRU list and decrement the bytes in use; then,
    independent of the Pool lock, take the lease's internal release
    operation and delete its Temporary File.  A silent no-op if the lease
    was already untracked.  Eviction revokes through the same path. *)
Definition revokeVoluntarily (fl rl : addr) : M unit :=
  mu_Lock fl;;
  p ← load_leaser fl;
  if bool_decide (rl ∈ lruList p) then
    size ← Size rl;
    store_leaser fl
      (mkFileLeaser (fl_mu p) (byteLimit p) (wrap64 (usedBytes p - size))
         (filter (λ x, x ≠ rl) (lruList p)));;
    mu_Unlock fl;;
    Mu_Lock rl;;
    file ← defer (Mu_Unlock rl) (release rl);
    match file with
    | Some f => file_Close f
    | None => ret ()
    end
  else
    mu_Unlock fl.

(** [func (rl *readLease) Read(p []byte) (n int, err error)].  The named
    results start at their zero values; the slice comes back as the call
    left it.  The branch for a nil file after the check is what
    the methods of [os.File] answer on a nil receiver. *)
Definition Read (rl : addr) (p : list byte) : M (list byte * Z * option error) :=
  l ← load_lease rl;
  promoteToMostRecent (rl_leaser l) rl;;
  Mu_Lock rl;;
  defer (Mu_Unlock rl)
    (r ← revoked rl;
     if r then ret (p, 0%Z, Some RevokedError)
     else
       l' ← load_lease rl;
       match rl_file l' with
       | Some f => file_Read f p
       | None => ret (p, 0%Z, Some (OsError "invalid argument"))
       end).

(** [func (rl *readLease) Seek(offset int64, whence int) (off int64, err error)] *)
Definition Seek (rl : addr) (offset whence : Z) : M (Z * option error) :=
  Mu_Lock rl;;
  defer (Mu_Unlock rl)
    (r ← revoked rl;
     if r then ret (0%Z, Some RevokedError)
     else
       l' ← load_lease rl;
       match rl_file l' with
       | Some f => file_Seek f offset whence
       | None => ret (0%Z, Some (OsError "invalid argument"))
       end).

(** [func (rl *readLease) ReadAt(p []byte, off int64) (n int, err error)] *)
Definition ReadAt (rl : addr) (p : list byte) (off : Z) : M (list byte * Z * option error) :=
  l ← load_lease rl;
  promoteToMostRecent (rl_leaser l) rl;;
  Mu_Lock rl;;
  defer (Mu_Unlock rl)
    (r ← revoked rl;
     if r then ret (p, 0%Z, Some RevokedError)
     else
       l' ← load_lease rl;
       match rl_file l' with
       | Some f => file_ReadAt f p off
       | None => ret (p, 0%Z, Some (OsError "invalid argument"))
       end).

(** [func (rl *readLease) Revoked() (revoked bool)] *)
Definition Revoked (rl : addr) : M bool :=
  Mu_Lock rl;;
  defer (Mu_Unlock rl) (revoked rl).

(** [func (rl *readLease) Upgrade() (rwl ReadWriteLease, err error)] *)
Definition Upgrade (rl : addr) : M (option readWriteLease * option error) :=
  l ← load_lease rl;
  upgrade (rl_leaser l) rl.

(** [func (rl *readLease) Revoke()] *)
Definition Revoke (rl : addr) : M unit :=
  l ← load_lease rl;
  revokeVoluntarily (rl_leaser l) rl.

(** ** Histories of calls *)

(** The calls a program can make on read leases: the constructor, the
    methods of the interface, and the internal [release]. *)
Inductive op : Type :=
  | OpNew (size : Z) (leaser : addr) (file : option File)
  | OpRead (rl : addr) (p : list byte)
  | OpSeek (rl : addr) (offset whence : Z)
  | OpReadAt (rl : addr) (p : list byte) (off : Z)
  | OpSize (rl : addr)
  | OpRevoked (rl : addr)
  | OpUpgrade (rl : addr)
  | OpRevoke (rl : addr)
  | OpRelease (rl : addr).

Definition void {A} (m : M A) : M unit := m;; ret ().

Definition perform (o : op) : M unit :=
  match o with
  | OpNew size leaser file => void (newReadLease size leaser file)
  | OpRead rl p => void (Read rl p)
  | OpSeek rl offset whence => void (Seek rl offset whence)
  | OpReadAt rl p off => void (ReadAt rl p off)
  | OpSize rl => void (Size rl)
  | OpRevoked rl => void (Revoked rl)
  | OpUpgrade rl => void (Upgrade rl)
  | OpRevoke rl => Revoke rl
  | OpRelease rl => void (release rl)
  end.

(** The states a program passes through, one per call; a panic or a call
    that blocks ends the history. *)
Fixpoint run (ops : list op) (s : State) : list State :=
  match ops with
  | [] => []
  | o :: ops' =>
      match perform o s with
      | Returns _ s' => s' :: run ops' s'
      | Panics _ s' => [s']
      | Blocks s' => [s']
      end
  end.

(** What [revoked()] answers in a state, [None] where it does not answer. *)
Definition revoked_in (rl : addr) (s : State) : option bool :=
  match revoked rl s with
  | Returns b _ => Some b
  | _ => None
  end.

(** Number of Valid-to-Revoked transitions of [rl] along a history, and of
    transitions back. *)
Fixpoint revocations (rl : addr) (h : list State) : nat :=
  match h with
  | s1 :: ((s2 :: _) as h') =>
      (if decide (revoked_in rl s1 = Some false ∧ revoked_in rl s2 = Some true)
       then 1 else 0) + revocations rl h'
  | _ => 0
  end.

Fixpoint resurrections (rl : addr) (h : list State) : nat :=
  match h with
  | s1 :: ((s2 :: _) as h') =>
      (if decide (revoked_in rl s1 = Some true ∧ revoked_in rl s2 ≠ Some true)
       then 1 else 0) + resurrections rl h'
  | _ => 0
  end.

(** The events a call appended to the log. *)
Definition new_events (s s' : State) : list event :=
  drop (length (trace s)) (trace s').

Definition is_pool_mutex (m : mutex) : bool :=
  match m with PoolMu _ => true | LeaseMu _ => false end.

Definition is_lease_mutex (m : mutex) : bool :=
  match m with LeaseMu _ => true | PoolMu _ => false end.

(** At no point of [evs], started with the locks [held], are a Pool lock
    and a lease lock held together. *)
Fixpoint locks_never_nested (held : list mutex) (evs : list event) : bool :=
  negb (existsb is_pool_mutex held && existsb is_lease_mutex held)
  && match evs with
     | [] => true
     | EvLock m :: evs' => locks_never_nested (m :: held) evs'
     | EvUnlock m :: evs' => locks_never_nested (filter (λ m', m' ≠ m) held) evs'
     | _ :: evs' => locks_never_nested held evs'
     end.

(** Every Pool event of [evs] (the promotion and the Pool lock operations)
    comes before the first acquisition of the lock of lease [rl]. *)
Fixpoint pool_before_lease_lock (rl : addr) (evs : list event) : bool :=
  match evs with
  | [] => true
  | e :: evs' =>
      if is_lease_lock rl e then forallb (λ e', negb (is_pool_event e')) evs'
      else pool_before_lease_lock rl evs'
  end.

(** ** The common shape of the three readers

    [Read], [Seek] and [ReadAt] run the same critical section around one
    call into the file layer.  [guarded] is that section; the lemmas about
    the readers are stated once, for it. *)
Definition promote_lru (rl : addr) (lru : list addr) : list addr :=
  if bool_decide (rl ∈ lru) then filter (λ x, x ≠ rl) lru ++ [rl] else lru.

Definition guarded {A} (rl : addr) (zero invalid : A) (call : File → M A) : M A :=
  Mu_Lock rl;;
  defer (Mu_Unlock rl)
    (r ← revoked rl;
     if r then ret zero
     else
       l' ← load_lease rl;
       match rl_file l' with
       | Some f => call f
       | None => ret invalid
       end).

Definition log (evs : list event) (s : State) : State :=
  mkState (leases s) (leasers s) (fs s) (trace s ++ evs).

(** Closed form of the outcome of [guarded] around a call into the file
    layer that answers [g f] and is logged as [ev f]. *)
Definition guarded_outcome {A} (rl : addr) (zero : A) (g : File → FS → A * FS)
    (ev : File → event) (s : State) : outcome A :=
  match leases s !! rl with
  | None => Panics nil_deref s
  | Some l =>
      if rl_Mu l then Blocks s
      else match rl_file l with
           | None =>
               Returns zero (log [EvLock (LeaseMu rl); EvUnlock (LeaseMu rl)] s)
           | Some f =>
               Returns (g f (fs s)).1
                 (mkState (leases s) (leasers s) (g f (fs s)).2
                    (trace s ++ [EvLock (LeaseMu rl); ev f; EvUnlock (LeaseMu rl)]))
           end
  end.

(** The state in which [promoteToMostRecent fl rl] returns when the leaser
    [pl] lives at [fl] with its lock free. *)
Definition promoted (fl rl : addr) (pl : fileLeaser) (s : State) : State :=
  mkState (leases s)
    (<[fl := mkFileLeaser false (byteLimit pl) (usedBytes pl)
               (promote_lru rl (lruList pl))]> (leasers s))
    (fs s)
    (trace s ++ [EvPromote fl rl; EvLock (PoolMu fl); EvUnlock (PoolMu fl)]).

(** Closed form of the outcome of a promotion followed by [guarded]:
    the outcome of [Read] and [ReadAt]. *)
Definition reader_outcome {A} (rl : addr) (zero : A) (g : File → FS → A * FS)
    (ev : File → event) (s : State) : outcome A :=
  match leases s !! rl with
  | None => Panics nil_deref s
  | Some l =>
      match leasers s !! rl_leaser l with
      | None => Panics nil_deref (log [EvPromote (rl_leaser l) rl] s)
      | Some pl =>
          if fl_mu pl then Blocks (log [EvPromote (rl_leaser l) rl] s)
          else guarded_outcome rl zero g ev (promoted (rl_leaser l) rl pl s)
      end
  end.

(** ** Relations between states *)

(** What may happen to the leases between two states: none disappears, the
    constant fields keep their values, and an absent file stays absent. *)
Definition evolves (s s' : State) : Prop :=
  ∀ rl l, leases s !! rl = Some l →
    ∃ l', leases s' !! rl = Some l'
          ∧ rl_size l' = rl_size l
          ∧ rl_leaser l' = rl_leaser l
          ∧ (rl_file l = None → rl_file l' = None).

(** A computation all of whose outcomes respect [evolves]. *)
Definition steady {A} (m : M A) : Prop := ∀ s, evolves s (final (m s)).

(** The lease at [rl] is [l] and a method can be called on it: its lock
    and the lock of its leaser are free. *)
Definition callable (s : State) (rl : addr) (l : readLease) : Prop :=
  leases s !! rl = Some l ∧ rl_Mu l = false
  ∧ ∃ pl, leasers s !! rl_leaser l = Some pl ∧ fl_mu pl = false.

(** Between [s] and [s'] the file layer was left alone. *)
Definition no_file_io (s s' : State) : Prop :=
  fs s' = fs s ∧ filter (λ e, is_file_event e = true) (new_events s s') = [].

(** ** Further observations on logs and histories *)

Definition is_promote_event (e : event) : bool :=
  match e with
  | EvPromote _ _ => true
  | _ => false
  end.

(** The locks held after the events [evs], started with the locks [held]. *)
Fixpoint held_after (held : list mutex) (evs : list event) : list mutex :=
  match evs with
  | [] => held
  | EvLock m :: evs' => held_after (m :: held) evs'
  | EvUnlock m :: evs' => held_after (filter (λ m', m' ≠ m) held) evs'
  | _ :: evs' => held_after held evs'
  end.

(** Whether the lock of lease [rl] is held after the event [e], given
    whether it was held before. *)
Definition lease_lock_after (rl : addr) (held : bool) (e : event) : bool :=
  match e with
  | EvLock (LeaseMu rl') => if bool_decide (rl' = rl) then true else held
  | EvUnlock (LeaseMu rl') => if bool_decide (rl' = rl) then false else held
  | _ => held
  end.

(** Every call into the file layer in [evs] happens while the lock of lease
    [rl] is held. *)
Fixpoint file_io_guarded (rl : addr) (held : bool) (evs : list event) : bool :=
  match evs with
  | [] => true
  | e :: evs' =>
      (if is_file_event e then held else true)
      && file_io_guarded rl (lease_lock_after rl held e) evs'
  end.

(** No mutex is held: neither a lease's nor a leaser's. *)
Definition locks_free (s : State) : Prop :=
  (∀ rl l, leases s !! rl = Some l → rl_Mu l = false)
  ∧ (∀ fl pl, leasers s !! fl = Some pl → fl_mu pl = false).

(** Whether a history ends in a call that blocks. *)
Fixpoint blocked (ops : list op) (s : State) : bool :=
  match ops with
  | [] => false
  | o :: ops' =>
      match perform o s with
      | Returns _ s' => blocked ops' s'
      | Panics _ _ => false
      | Blocks _ => true
      end
  end.

(** An outcome that is not a blocked call and whose state has no mutex
    held. *)
Definition ends_unlocked {A} (o : outcome A) : Prop :=
  match o with
  | Returns _ s' | Panics _ s' => locks_free s'
  | Blocks _ => False
  end.

(** The calls that only read: the constructor and the methods that do not
    hand the file over. *)
Definition is_reading (o : op) : bool :=
  match o with
  | OpNew _ _ _ | OpRead _ _ | OpSeek _ _ _ | OpReadAt _ _ _
  | OpSize _ | OpRevoked _ => true
  | OpUpgrade _ | OpRevoke _ | OpRelease _ => false
  end.

(** ** The Pool's side of the life of a read lease *)

(** Modelled from the spec: the Pool's tracking of a fresh Read Lease is
    not part of the source at hand.  Sections 4.2 and 4.3 (fresh tracking
    of a new or downgraded Read Lease): under the Pool lock the Pool wraps
    the file in a fresh Read Lease of the given size, inserts it as
    most-recently-used and charges its size against the bytes in use.  The
    eviction that may follow revokes leases one at a time through the path
    of [revokeVoluntarily]; in a history it is a run of [Revoke] calls. *)
Definition track (fl : addr) (size : Z) (f : File) : M addr :=
  mu_Lock fl;;
  rl ← newReadLease size fl (Some f);
  p ← load_leaser fl;
  store_leaser fl
    (mkFileLeaser (fl_mu p) (byteLimit p) (wrap64 (usedBytes p + size))
       (lruList p ++ [rl]));;
  mu_Unlock fl;;
  ret rl.

(** What can happen to the read leases of a Pool: the Pool tracks a fresh
    lease, or a method of the [ReadLease] interface is called ([Revoke]
    also stands for an eviction).  [newReadLease] and [release] are
    internal to the package and run only inside these: the Pool mediates
    every creation, upgrade, downgrade and revocation (section 2 of the
    specification). *)
Inductive pool_call : Type :=
  | CallTrack (fl : addr) (size : Z) (f : File)
  | CallRead (rl : addr) (p : list byte)
  | CallSeek (rl : addr) (offset whence : Z)
  | CallReadAt (rl : addr) (p : list byte) (off : Z)
  | CallSize (rl : addr)
  | CallRevoked (rl : addr)
  | CallUpgrade (rl : addr)
  | CallRevoke (rl : addr).

Definition perform_call (c : pool_call) : M unit :=
  match c with
  | CallTrack fl size f => void (track fl size f)
  | CallRead rl p => perform (OpRead rl p)
  | CallSeek rl offset whence => perform (OpSeek rl offset whence)
  | CallReadAt rl p off => perform (OpReadAt rl p off)
  | CallSize rl => perform (OpSize rl)
  | CallRevoked rl => perform (OpRevoked rl)
  | CallUpgrade rl => perform (OpUpgrade rl)
  | CallRevoke rl => perform (OpRevoke rl)
  end.

(** The states a Pool passes through, one per call. *)
Fixpoint pool_run (cs : list pool_call) (s : State) : list State :=
  match cs with
  | [] => []
  | c :: cs' =>
      match perform_call c s with
      | Returns _ s' => s' :: pool_run cs' s'
      | Panics _ s' => [s']
      | Blocks s' => [s']
      end
  end.

(** The Pool's tracking invariant: no mutex is held, and every lease is in
    the LRU list of its leaser exactly when its file is present. *)
Definition pool_invariant (s : State) : Prop :=
  locks_free s
  ∧ ∀ rl l, leases s !! rl = Some l →
      ∃ pl, leasers s !! rl_leaser l = Some pl
            ∧ (rl ∈ lruList pl ↔ is_Some (rl_file l)).

End Lease.

Arguments State FS : clear implicits.
Arguments outcome FS A : clear implicits.
Arguments M FS A : clear implicits.

(** Concrete states: one leaser at address 1 with limit 100; file 7 holds
    three bytes.  In [st_valid] lease 1 owns file 7 and is tracked; in
    [st_revoked] it has been revoked and is no longer tracked. *)
Definition disk0 : gmap File memfile :=
  {[ 7%positive := mkMemfile [x61; x62; x63]%byte 0%Z ]}.

Definition lease_valid : readLease := mkReadLease false 3%Z 1%positive (Some 7%positive).

Definition lease_revoked : readLease := mkReadLease false 3%Z 1%positive None.

Definition pool_tracking : fileLeaser := mkFileLeaser false 100%Z 3%Z [1%positive].

Definition pool_empty : fileLeaser := mkFileLeaser false 100%Z 0%Z [].

Definition st_valid : State (gmap File memfile) :=
  mkState {[ 1%positive := lease_valid ]} {[ 1%positive := pool_tracking ]} disk0 [].

Definition st_revoked : State (gmap File memfile) :=
  mkState {[ 1%positive := lease_revoked ]} {[ 1%positive := pool_empty ]} ∅ [].

(** [st_valid] while somebody holds the lock of lease 1. *)
Definition st_held : State (gmap File memfile) :=
  mkState {[ 1%positive := mkReadLease true 3%Z 1%positive (Some 7%positive) ]}
          {[ 1%positive := pool_tracking ]} disk0 [].

(** A Pool with one leaser and no lease yet, and a history in which it
    tracks a lease on file 7 that is then read and upgraded. *)
Definition st_empty : State (gmap File memfile) :=
  mkState ∅ {[ 1%positive := pool_empty ]} disk0 [].

Definition pool_calls : list pool_call :=
  [CallTrack 1%positive 3%Z 7%positive; CallRead 1%positive [x00]%byte;
   CallUpgrade 1%positive].

(** A history of calls that only read. *)
Definition reading_ops : list op :=
  [OpRead 1%positive [x00; x00]%byte; OpNew 4%Z 1%positive None;
   OpSeek 1%positive 1%Z 0%Z; OpRevoked 1%positive; OpSize 2%positive;
   OpReadAt 2%positive [x00]%byte 0%Z].

(** A history that reads, revokes, seeks and tries to upgrade lease 1. *)
Definition sample_ops : list op :=
  [OpRead 1%positive [x00; x00]%byte; OpRevoke 1%positive;
   OpSeek 1%positive 0%Z 0%Z; OpUpgrade 1%positive].

(** * Properties *)

Section LeaseProofs.
Context {FS : Type} {file_layer : FileOps FS}.
Implicit Types (s : State FS) (rl fl : addr) (l : readLease) (pl : fileLeaser).

(** ** Equations of the building blocks *)

Lemma new_events_app s (t : list event) (leases' : gmap addr readLease)
    (leasers' : gmap addr fileLeaser) (w : FS) :
  new_events s (mkState leases' leasers' w (trace s ++ t)) = t.
Proof. unfold new_events. simpl. by rewrite drop_app_length. Qed.

Lemma new_events_same s : new_events s s = [].
Proof. unfold new_events. by rewrite drop_all. Qed.

Lemma new_events_log s (t : list event) : new_events s (log t s) = t.
Proof. apply new_events_app. Qed.

Lemma promoteToMostRecent_eq fl rl s :
  promoteToMostRecent fl rl s =
  match leasers s !! fl with
  | None => Panics nil_deref (log [EvPromote fl rl] s)
  | Some pl =>
      if fl_mu pl then Blocks (log [EvPromote fl rl] s)
      else Returns () (promoted fl rl pl s)
  end.
Proof.
  unfold promoteToMostRecent, mu_Lock, mu_Unlock, load_leaser, store_leaser,
    emit, defer, bind, ret, promoted, promote_lru, log.
  simpl. destruct (leasers s !! fl) as [pl|] eqn:Hpl; [|done].
  destruct (fl_mu pl) eqn:Hmu; [done|]. simpl.
  rewrite lookup_insert_eq. simpl.
  destruct (bool_decide (rl ∈ lruList pl)); simpl; rewrite lookup_insert_eq; simpl;
    rewrite ?insert_insert_eq, <- !app_assoc; simpl; reflexivity.
Qed.

Lemma guarded_eq {A} rl (zero invalid : A) (g : File → FS → A * FS)
    (ev : File → event) s :
  guarded rl zero invalid (λ f, file_call (g f) (ev f)) s
  = guarded_outcome rl zero g ev s.
Proof.
  unfold guarded, guarded_outcome, Mu_Lock, Mu_Unlock, revoked, load_lease,
    store_lease, emit, defer, bind, ret, file_call, log.
  destruct (leases s !! rl) as [l|] eqn:Hl; [|done].
  destruct l as [m sz fl f]. simpl. destruct m; [done|]. simpl.
  rewrite lookup_insert_eq. simpl.
  destruct f as [f|]; simpl; rewrite ?lookup_insert_eq; simpl.
  - destruct (g f (fs s)) as [r w]. simpl. rewrite lookup_insert_eq. simpl.
    rewrite insert_insert_eq, insert_id by done.
    rewrite <- !app_assoc. reflexivity.
  - rewrite insert_insert_eq, insert_id by done.
    rewrite <- !app_assoc. reflexivity.
Qed.

(** The three readers in closed form. *)
Lemma Seek_eq rl offset whence s :
  Seek rl offset whence s =
  guarded_outcome rl (0%Z, Some RevokedError)
    (λ f w, as_error (os_Seek f offset whence w)) EvFileSeek s.
Proof.
  rewrite <- (guarded_eq rl _ (0%Z, Some (OsError "invalid argument"))).
  reflexivity.
Qed.

Lemma Read_eq rl buf s :
  Read rl buf s =
  reader_outcome rl (buf, 0%Z, Some RevokedError)
    (λ f w, as_error (os_Read f buf w)) EvFileRead s.
Proof.
  unfold Read, reader_outcome, bind at 1, load_lease.
  destruct (leases s !! rl) as [l|]; [|reflexivity].
  unfold bind at 1. rewrite promoteToMostRecent_eq.
  destruct (leasers s !! rl_leaser l) as [pl|]; [|reflexivity].
  destruct (fl_mu pl); [reflexivity|].
  rewrite <- (guarded_eq rl _ (buf, 0%Z, Some (OsError "invalid argument"))).
  reflexivity.
Qed.

Lemma ReadAt_eq rl buf off s :
  ReadAt rl buf off s =
  reader_outcome rl (buf, 0%Z, Some RevokedError)
    (λ f w, as_error (os_ReadAt f buf off w)) EvFileReadAt s.
Proof.
  unfold ReadAt, reader_outcome, bind at 1, load_lease.
  destruct (leases s !! rl) as [l|]; [|reflexivity].
  unfold bind at 1. rewrite promoteToMostRecent_eq.
  destruct (leasers s !! rl_leaser l) as [pl|]; [|reflexivity].
  destruct (fl_mu pl); [reflexivity|].
  rewrite <- (guarded_eq rl _ (buf, 0%Z, Some (OsError "invalid argument"))).
  reflexivity.
Qed.

(** The readers on a callable lease. *)
Lemma guarded_outcome_revoked {A} rl l (zero : A) g ev s :
  leases s !! rl = Some l → rl_Mu l = false → rl_file l = None →
  guarded_outcome rl zero g ev s
  = Returns zero (log [EvLock (LeaseMu rl); EvUnlock (LeaseMu rl)] s).
Proof. intros Hl HMu Hf. unfold guarded_outcome. by rewrite Hl, HMu, Hf. Qed.

Lemma guarded_outcome_valid {A} rl l f (zero : A) g ev s :
  leases s !! rl = Some l → rl_Mu l = false → rl_file l = Some f →
  guarded_outcome rl zero g ev s
  = Returns (g f (fs s)).1
      (mkState (leases s) (leasers s) (g f (fs s)).2
         (trace s ++ [EvLock (LeaseMu rl); ev f; EvUnlock (LeaseMu rl)])).
Proof. intros Hl HMu Hf. unfold guarded_outcome. by rewrite Hl, HMu, Hf. Qed.

Lemma reader_outcome_callable {A} rl l (zero : A) g ev s :
  callable s rl l →
  ∃ pl, leasers s !! rl_leaser l = Some pl ∧ fl_mu pl = false
        ∧ reader_outcome rl zero g ev s
          = guarded_outcome rl zero g ev (promoted (rl_leaser l) rl pl s).
Proof.
  intros (Hl & HMu & pl & Hpl & Hmu). exists pl. repeat split; try done.
  unfold reader_outcome. by rewrite Hl, Hpl, Hmu.
Qed.

Lemma callable_promoted s rl l pl :
  callable s rl l → leasers s !! rl_leaser l = Some pl →
  callable (promoted (rl_leaser l) rl pl s) rl l.
Proof.
  intros (Hl & HMu & _) Hpl. repeat split; try done.
  eexists. split; [apply lookup_insert_eq | reflexivity].
Qed.

Lemma callable_same_stores s s' rl l :
  callable s rl l → leases s' = leases s → leasers s' = leasers s →
  callable s' rl l.
Proof. unfold callable. intros H -> ->. exact H. Qed.

Lemma new_events_promoted s fl rl pl (t : list event)
    (leases' : gmap addr readLease) (leasers' : gmap addr fileLeaser) (w : FS) :
  new_events s (mkState leases' leasers' w (trace (promoted fl rl pl s) ++ t))
  = [EvPromote fl rl; EvLock (PoolMu fl); EvUnlock (PoolMu fl)] ++ t.
Proof.
  unfold new_events, promoted. simpl.
  by rewrite <- app_assoc, drop_app_length.
Qed.

(** ** [Read], [Seek] and [ReadAt] *)

(** C1. On a read lease whose file is absent, [Read], [Seek] and [ReadAt]
    return the [RevokedError] marker; the file layer is not called (its
    state is the same and the log has no file event), and the lease is
    callable and revoked afterwards, so the same holds for every later
    call. *)
Theorem revoked_lease_calls_fail s rl l (buf : list byte) (offset whence off : Z) :
  callable s rl l → rl_file l = None →
  (∃ r s', Read rl buf s = Returns r s' ∧ r.2 = Some RevokedError
           ∧ no_file_io s s' ∧ callable s' rl l)
  ∧ (∃ r s', Seek rl offset whence s = Returns r s' ∧ r.2 = Some RevokedError
             ∧ no_file_io s s' ∧ callable s' rl l)
  ∧ (∃ r s', ReadAt rl buf off s = Returns r s' ∧ r.2 = Some RevokedError
             ∧ no_file_io s s' ∧ callable s' rl l).
Proof.
  intros Hc Hf.
  destruct (reader_outcome_callable rl l (buf, 0%Z, Some RevokedError)
              (λ f w, as_error (os_Read f buf w)) EvFileRead s Hc)
    as (pl & Hpl & Hmu & HR).
  destruct (reader_outcome_callable rl l (buf, 0%Z, Some RevokedError)
              (λ f w, as_error (os_ReadAt f buf off w)) EvFileReadAt s Hc)
    as (pl' & Hpl' & _ & HRA).
  assert (pl' = pl) as -> by congruence.
  pose proof (callable_promoted s rl l pl Hc Hpl) as Hc'.
  destruct Hc as (Hl & HMu & _).
  split; [|split].
  - rewrite Read_eq, HR, (guarded_outcome_revoked rl l) by done.
    eexists _, _. split; [reflexivity|]. split; [reflexivity|]. split.
    + split; [reflexivity|]. unfold log. by rewrite new_events_promoted.
    + by eapply callable_same_stores.
  - rewrite Seek_eq, (guarded_outcome_revoked rl l) by done.
    eexists _, _. split; [reflexivity|]. split; [reflexivity|]. split.
    + split; [reflexivity|]. by rewrite new_events_log.
    + repeat split; try done.
      destruct Hc' as (_ & _ & _). by exists pl.
  - rewrite ReadAt_eq, HRA, (guarded_outcome_revoked rl l) by done.
    eexists _, _. split; [reflexivity|]. split; [reflexivity|]. split.
    + split; [reflexivity|]. unfold log. by rewrite new_events_promoted.
    + by eapply callable_same_stores.
Qed.

(** C8. On a valid, callable read lease, [Read], [Seek] and [ReadAt] return
    what the file layer answered: the same values and the same error, after
    exactly one call into the file layer, whose state is the one that call
    left. *)
Theorem valid_lease_calls_delegate s rl l f (buf : list byte) (offset whence off : Z) :
  callable s rl l → rl_file l = Some f →
  (∃ s', Read rl buf s
         = Returns ((os_Read f buf (fs s)).1.1, OsError <$> (os_Read f buf (fs s)).1.2) s'
         ∧ fs s' = (os_Read f buf (fs s)).2
         ∧ filter (λ e, is_file_event e = true) (new_events s s') = [EvFileRead f])
  ∧ (∃ s', Seek rl offset whence s
           = Returns ((os_Seek f offset whence (fs s)).1.1,
                      OsError <$> (os_Seek f offset whence (fs s)).1.2) s'
           ∧ fs s' = (os_Seek f offset whence (fs s)).2
           ∧ filter (λ e, is_file_event e = true) (new_events s s') = [EvFileSeek f])
  ∧ (∃ s', ReadAt rl buf off s
           = Returns ((os_ReadAt f buf off (fs s)).1.1,
                      OsError <$> (os_ReadAt f buf off (fs s)).1.2) s'
           ∧ fs s' = (os_ReadAt f buf off (fs s)).2
           ∧ filter (λ e, is_file_event e = true) (new_events s s') = [EvFileReadAt f]).
Proof.
  intros Hc Hf.
  destruct (reader_outcome_callable rl l (buf, 0%Z, Some RevokedError)
              (λ f w, as_error (os_Read f buf w)) EvFileRead s Hc)
    as (pl & Hpl & Hmu & HR).
  destruct (reader_outcome_callable rl l (buf, 0%Z, Some RevokedError)
              (λ f w, as_error (os_ReadAt f buf off w)) EvFileReadAt s Hc)
    as (pl' & Hpl' & _ & HRA).
  assert (pl' = pl) as -> by congruence.
  destruct Hc as (Hl & HMu & _).
  split; [|split].
  - rewrite Read_eq, HR, (guarded_outcome_valid rl l f) by done.
    eexists. split; [reflexivity|]. split; [reflexivity|].
    by rewrite new_events_promoted.
  - rewrite Seek_eq, (guarded_outcome_valid rl l f) by done.
    eexists. split; [reflexivity|]. split; [reflexivity|].
    by rewrite new_events_app.
  - rewrite ReadAt_eq, HRA, (guarded_outcome_valid rl l f) by done.
    eexists. split; [reflexivity|]. split; [reflexivity|].
    by rewrite new_events_promoted.
Qed.

(** What a reader can return, whatever the state it is called in. *)
Lemma guarded_outcome_returns {A} rl (zero : A) g ev s r s' :
  guarded_outcome rl zero g ev s = Returns r s' →
  ∃ l, leases s !! rl = Some l ∧ leases s' = leases s
       ∧ ((rl_file l = None ∧ r = zero)
          ∨ (∃ f, rl_file l = Some f ∧ r = (g f (fs s)).1)).
Proof.
  unfold guarded_outcome. intros H.
  destruct (leases s !! rl) as [l|]; [|done]. exists l.
  destruct (rl_Mu l); [done|].
  destruct (rl_file l) as [f|]; simplify_eq; eauto 10.
Qed.

Lemma reader_outcome_returns {A} rl (zero : A) g ev s r s' :
  reader_outcome rl zero g ev s = Returns r s' →
  ∃ l, leases s !! rl = Some l ∧ leases s' = leases s
       ∧ ((rl_file l = None ∧ r = zero)
          ∨ (∃ f, rl_file l = Some f ∧ r = (g f (fs s)).1)).
Proof.
  unfold reader_outcome. intros H.
  destruct (leases s !! rl) as [l|] eqn:Hl; [|done].
  destruct (leasers s !! rl_leaser l) as [pl|]; [|done].
  destruct (fl_mu pl); [done|].
  apply guarded_outcome_returns in H as (l' & Hl' & Hs & Hr).
  simpl in Hl'. assert (l' = l) as -> by congruence. eauto.
Qed.

(** C9. Whenever [Read], [ReadAt] or [Seek] returns the [RevokedError]
    marker, the other result is zero (and the buffer is the one passed in),
    and the leases are as they were before the call. *)
Theorem revoked_failure_returns_zero s rl (buf : list byte) (offset whence off : Z) :
  (∀ r s', Read rl buf s = Returns r s' → r.2 = Some RevokedError →
           r.1 = (buf, 0%Z) ∧ leases s' = leases s)
  ∧ (∀ r s', Seek rl offset whence s = Returns r s' → r.2 = Some RevokedError →
             r.1 = 0%Z ∧ leases s' = leases s)
  ∧ (∀ r s', ReadAt rl buf off s = Returns r s' → r.2 = Some RevokedError →
             r.1 = (buf, 0%Z) ∧ leases s' = leases s).
Proof.
  split; [|split]; intros r s' Hrun Herr.
  - rewrite Read_eq in Hrun.
    apply reader_outcome_returns in Hrun as (l & _ & Hs & [[_ ->]|(f & _ & ->)]);
      [done|].
    simpl in Herr. by destruct (os_Read f buf (fs s)).1.2.
  - rewrite Seek_eq in Hrun.
    apply guarded_outcome_returns in Hrun as (l & _ & Hs & [[_ ->]|(f & _ & ->)]);
      [done|].
    simpl in Herr. by destruct (os_Seek f offset whence (fs s)).1.2.
  - rewrite ReadAt_eq in Hrun.
    apply reader_outcome_returns in Hrun as (l & _ & Hs & [[_ ->]|(f & _ & ->)]);
      [done|].
    simpl in Herr. by destruct (os_ReadAt f buf off (fs s)).1.2.
Qed.

(** C7. [Seek] never promotes: in every execution the leasers, and so the
    LRU order of each, are what they were, and the log gains no promotion
    and no Pool lock event.  Its revoked check is the one of [Read] and
    [ReadAt]: on a callable lease the three return, and each returns the
    [RevokedError] marker exactly when the file is absent. *)
Theorem Seek_does_not_promote s rl (buf : list byte) (offset whence off : Z) :
  leasers (final (Seek rl offset whence s)) = leasers s
  ∧ filter (λ e, is_pool_event e = true)
      (new_events s (final (Seek rl offset whence s))) = []
  ∧ (∀ l, callable s rl l →
       ∃ r s1 r2 s2 r3 s3,
         Seek rl offset whence s = Returns r s1
         ∧ Read rl buf s = Returns r2 s2
         ∧ ReadAt rl buf off s = Returns r3 s3
         ∧ (r.2 = Some RevokedError ↔ rl_file l = None)
         ∧ (r2.2 = Some RevokedError ↔ rl_file l = None)
         ∧ (r3.2 = Some RevokedError ↔ rl_file l = None)).
Proof.
  split; [|split].
  - rewrite Seek_eq. unfold guarded_outcome.
    destruct (leases s !! rl) as [l|]; [|done].
    destruct (rl_Mu l); [done|]. by destruct (rl_file l).
  - rewrite Seek_eq. unfold guarded_outcome.
    destruct (leases s !! rl) as [l|]; simpl; [|by rewrite new_events_same].
    destruct (rl_Mu l); simpl; [by rewrite new_events_same|].
    destruct (rl_file l); simpl;
      [by rewrite new_events_app | by rewrite new_events_log].
  - intros l Hc.
    destruct (reader_outcome_callable rl l (buf, 0%Z, Some RevokedError)
                (λ f w, as_error (os_Read f buf w)) EvFileRead s Hc)
      as (pl & Hpl & Hmu & HR).
    destruct (reader_outcome_callable rl l (buf, 0%Z, Some RevokedError)
                (λ f w, as_error (os_ReadAt f buf off w)) EvFileReadAt s Hc)
      as (pl' & Hpl' & _ & HRA).
    assert (pl' = pl) as -> by congruence.
    destruct Hc as (Hl & HMu & _).
    rewrite Seek_eq, Read_eq, ReadAt_eq, HR, HRA.
    destruct (rl_file l) as [f|] eqn:Hf.
    + rewrite !(guarded_outcome_valid rl l f) by done.
      eexists _, _, _, _, _, _.
      split; [reflexivity|]. split; [reflexivity|]. split; [reflexivity|].
      simpl. split; [|split]; (split; [|done]).
      * by destruct (os_Seek f offset whence (fs s)).1.2.
      * by destruct (os_Read f buf _).1.2.
      * by destruct (os_ReadAt f buf off _).1.2.
    + rewrite !(guarded_outcome_revoked rl l) by done.
      eexists _, _, _, _, _, _.
      split; [reflexivity|]. split; [reflexivity|]. split; [reflexivity|].
      done.
Qed.

(** ** Order of the lock operations *)

Lemma filter_ne_singleton (m : mutex) : filter (λ m', m' ≠ m) [m] = [].
Proof. by rewrite filter_cons_False, filter_nil by naive_solver. Qed.

Lemma reader_outcome_events {A} rl (zero : A) g (ev : File → event) s :
  (∀ f, is_file_event (ev f) = true) →
  pool_before_lease_lock rl (new_events s (final (reader_outcome rl zero g ev s))) = true
  ∧ locks_never_nested [] (new_events s (final (reader_outcome rl zero g ev s))) = true.
Proof.
  intros Hev. unfold reader_outcome.
  destruct (leases s !! rl) as [l|] eqn:Hl; simpl; [|by rewrite new_events_same].
  destruct (leasers s !! rl_leaser l) as [pl|] eqn:Hpl; simpl;
    [|by rewrite new_events_log].
  destruct (fl_mu pl); simpl; [by rewrite new_events_log|].
  unfold guarded_outcome.
  change (leases (promoted (rl_leaser l) rl pl s)) with (leases s). rewrite Hl.
  destruct (rl_Mu l); cbn [final].
  { unfold promoted. rewrite new_events_app. simpl.
    by rewrite filter_ne_singleton. }
  destruct (rl_file l) as [f|]; cbn [final].
  - rewrite new_events_promoted. simpl.
    rewrite bool_decide_eq_true_2, !filter_ne_singleton by done.
    specialize (Hev f). destruct (ev f); try discriminate Hev; done.
  - unfold log. rewrite new_events_promoted. simpl.
    by rewrite bool_decide_eq_true_2, !filter_ne_singleton.
Qed.

(** C6. In every execution of [Read] and of [ReadAt] (returning, panicking
    or blocked), every Pool event (the promotion and the operations on the
    Pool lock) comes before the acquisition of the lease's own lock, and at
    no point are a Pool lock and a lease lock held together.  On a callable
    lease the promotion and the acquisition do take place, in that order. *)
Theorem promotion_before_lease_lock s rl (buf : list byte) (off : Z) :
  pool_before_lease_lock rl (new_events s (final (Read rl buf s))) = true
  ∧ locks_never_nested [] (new_events s (final (Read rl buf s))) = true
  ∧ pool_before_lease_lock rl (new_events s (final (ReadAt rl buf off s))) = true
  ∧ locks_never_nested [] (new_events s (final (ReadAt rl buf off s))) = true
  ∧ (∀ l, callable s rl l →
       ∃ t t',
         new_events s (final (Read rl buf s))
         = [EvPromote (rl_leaser l) rl; EvLock (PoolMu (rl_leaser l));
            EvUnlock (PoolMu (rl_leaser l)); EvLock (LeaseMu rl)] ++ t
         ∧ new_events s (final (ReadAt rl buf off s))
           = [EvPromote (rl_leaser l) rl; EvLock (PoolMu (rl_leaser l));
              EvUnlock (PoolMu (rl_leaser l)); EvLock (LeaseMu rl)] ++ t').
Proof.
  rewrite Read_eq, ReadAt_eq.
  split; [|split; [|split; [|split]]];
    try (by apply reader_outcome_events).
  intros l Hc.
  destruct (reader_outcome_callable rl l (buf, 0%Z, Some RevokedError)
              (λ f w, as_error (os_Read f buf w)) EvFileRead s Hc)
    as (pl & Hpl & Hmu & ->).
  destruct (reader_outcome_callable rl l (buf, 0%Z, Some RevokedError)
              (λ f w, as_error (os_ReadAt f buf off w)) EvFileReadAt s Hc)
    as (pl' & Hpl' & _ & ->).
  assert (pl' = pl) as -> by congruence.
  destruct Hc as (Hl & HMu & _).
  destruct (rl_file l) as [f|] eqn:Hf.
  - rewrite !(guarded_outcome_valid rl l f) by done. cbn [final].
    rewrite !new_events_promoted. by eexists _, _.
  - rewrite !(guarded_outcome_revoked rl l) by done. cbn [final].
    unfold log. rewrite !new_events_promoted. by eexists _, _.
Qed.

(** ** Construction, [release] and [Size] *)

(** C10. [newReadLease] given a file that is not nil returns a new lease
    that is valid ([revoked()] answers false) and whose [Size()] is the
    size passed in, for every size and leaser. *)
Theorem newReadLease_is_valid s (size : Z) (leaser : addr) (file : option File) :
  file ≠ None →
  ∃ rl s', newReadLease size leaser file s = Returns rl s'
           ∧ leases s !! rl = None
           ∧ revoked rl s' = Returns false s'
           ∧ Size rl s' = Returns size s'.
Proof.
  intros Hfile. eexists _, _. split; [reflexivity|]. split.
  - apply not_elem_of_dom, is_fresh.
  - unfold revoked, Size, bind, load_lease, ret. simpl.
    rewrite lookup_insert_eq. simpl. split; [|done].
    by rewrite bool_decide_eq_false_2.
Qed.

(** C3. [release] on a valid lease returns the very file the lease held and
    leaves the lease revoked; the file layer is not called (no deletion),
    the leasers and the log are untouched.  On a revoked lease it panics. *)
Theorem release_hands_over_the_file s rl l :
  leases s !! rl = Some l →
  (∀ f, rl_file l = Some f →
     ∃ s', release rl s = Returns (Some f) s'
           ∧ leases s' = <[rl := mkReadLease (rl_Mu l) (rl_size l) (rl_leaser l) None]> (leases s)
           ∧ revoked rl s' = Returns true s'
           ∧ leasers s' = leasers s ∧ fs s' = fs s ∧ trace s' = trace s)
  ∧ (rl_file l = None → release rl s = Panics "Already revoked" s).
Proof.
  intros Hl. unfold release, revoked, bind, load_lease, store_lease, ret, panic.
  rewrite Hl. split.
  - intros f Hf. rewrite Hf. simpl. rewrite Hl, Hf.
    eexists. split; [reflexivity|]. simpl. rewrite lookup_insert_eq. done.
  - intros Hf. by rewrite Hf.
Qed.

(** ** What no call can do to a lease *)

Lemma evolves_refl s : evolves s s.
Proof. intros rl l Hl. by exists l. Qed.

Lemma evolves_trans s1 s2 s3 : evolves s1 s2 → evolves s2 s3 → evolves s1 s3.
Proof.
  intros H12 H23 rl l Hl.
  destruct (H12 rl l Hl) as (l2 & Hl2 & Hsz2 & Hfl2 & Hf2).
  destruct (H23 rl l2 Hl2) as (l3 & Hl3 & Hsz3 & Hfl3 & Hf3).
  exists l3. repeat split; [done|congruence|congruence|auto].
Qed.

Lemma evolves_same_leases s s' : leases s' = leases s → evolves s s'.
Proof. intros Heq rl l Hl. exists l. by rewrite Heq. Qed.

Lemma evolves_update s rl l l' (leasers' : gmap addr fileLeaser) (w : FS)
    (t : list event) :
  leases s !! rl = Some l →
  rl_size l' = rl_size l → rl_leaser l' = rl_leaser l →
  (rl_file l = None → rl_file l' = None) →
  evolves s (mkState (<[rl := l']> (leases s)) leasers' w t).
Proof.
  intros Hl Hsz Hfl Hf rl0 l0 Hl0. simpl.
  destruct (decide (rl = rl0)) as [->|Hne].
  - rewrite lookup_insert_eq. exists l'. by simplify_eq.
  - rewrite lookup_insert_ne by done. by exists l0.
Qed.

Lemma evolves_alloc s rl l' (leasers' : gmap addr fileLeaser) (w : FS)
    (t : list event) :
  leases s !! rl = None →
  evolves s (mkState (<[rl := l']> (leases s)) leasers' w t).
Proof.
  intros Hnone rl0 l0 Hl0. simpl.
  rewrite lookup_insert_ne by congruence. by exists l0.
Qed.

Lemma steady_ret {A} (a : A) : steady (FS := FS) (ret a).
Proof. intros s. apply evolves_refl. Qed.

Lemma steady_panic {A} msg : steady (FS := FS) (panic (A := A) msg).
Proof. intros s. apply evolves_refl. Qed.

Lemma steady_blocks {A} : steady (FS := FS) (λ s, Blocks (A := A) s).
Proof. intros s. apply evolves_refl. Qed.

Lemma steady_bind {A B} (m : M FS A) (k : A → M FS B) :
  steady m → (∀ a, steady (k a)) → steady (bind m k).
Proof.
  intros Hm Hk s. unfold bind. specialize (Hm s).
  destruct (m s) as [a s1| |]; try done.
  eapply evolves_trans; [exact Hm | apply Hk].
Qed.

Lemma steady_defer {A} (d : M FS unit) (body : M FS A) :
  steady d → steady body → steady (defer d body).
Proof.
  intros Hd Hb s. unfold defer. specialize (Hb s).
  destruct (body s) as [a s1|msg s1|s1]; simpl in Hb; try done;
    specialize (Hd s1); destruct (d s1); simpl in *;
    by eapply evolves_trans.
Qed.

Lemma steady_emit e : steady (FS := FS) (emit e).
Proof. intros s. by apply evolves_same_leases. Qed.

Lemma steady_load_lease rl : steady (FS := FS) (load_lease rl).
Proof. intros s. unfold load_lease. destruct (leases s !! rl); apply evolves_refl. Qed.

Lemma steady_load_leaser fl : steady (FS := FS) (load_leaser fl).
Proof. intros s. unfold load_leaser. destruct (leasers s !! fl); apply evolves_refl. Qed.

Lemma steady_store_leaser fl pl : steady (FS := FS) (store_leaser fl pl).
Proof. intros s. by apply evolves_same_leases. Qed.

Lemma steady_file_call {A} (g : FS → A * FS) ev : steady (file_call g ev).
Proof.
  intros s. unfold file_call. destruct (g (fs s)). by apply evolves_same_leases.
Qed.

Lemma steady_Mu_Lock rl : steady (FS := FS) (Mu_Lock rl).
Proof.
  intros s. unfold Mu_Lock, bind, load_lease, store_lease, emit.
  destruct (leases s !! rl) as [l|] eqn:Hl; [|apply evolves_refl].
  destruct (rl_Mu l); [apply evolves_refl|]. simpl.
  by eapply evolves_update.
Qed.

Lemma steady_Mu_Unlock rl : steady (FS := FS) (Mu_Unlock rl).
Proof.
  intros s. unfold Mu_Unlock, bind, load_lease, store_lease, emit, panic.
  destruct (leases s !! rl) as [l|] eqn:Hl; [|apply evolves_refl].
  destruct (rl_Mu l); [|apply evolves_refl]. simpl.
  by eapply evolves_update.
Qed.

Lemma steady_release rl : steady (FS := FS) (release rl).
Proof.
  intros s. unfold release, revoked, bind, load_lease, store_lease, ret, panic.
  destruct (leases s !! rl) as [l|] eqn:Hl; [|apply evolves_refl]. simpl.
  destruct (bool_decide (rl_file l = None)); [apply evolves_refl|].
  rewrite Hl. simpl. by eapply evolves_update.
Qed.

Lemma steady_newReadLease size leaser file :
  steady (FS := FS) (newReadLease size leaser file).
Proof.
  intros s. unfold newReadLease. simpl.
  apply evolves_alloc, not_elem_of_dom, is_fresh.
Qed.

(** Composite computations: follow their structure. *)
Ltac steady_step :=
  first
    [ apply steady_Mu_Lock | apply steady_Mu_Unlock | apply steady_release
    | apply steady_newReadLease
    | apply steady_emit | apply steady_load_lease | apply steady_load_leaser
    | apply steady_store_leaser | apply steady_file_call
    | apply steady_ret | apply steady_panic | apply steady_blocks
    | apply steady_defer | apply steady_bind
    | match goal with
      | |- steady (if ?b then _ else _) => destruct b
      | |- steady (match ?o with Some _ => _ | None => _ end) => destruct o
      | |- ∀ _, _ => intro
      end ].

Ltac steady_tac := repeat steady_step.

Lemma steady_perform (o : op) : steady (FS := FS) (perform o).
Proof.
  destruct o; unfold perform, void, Read, Seek, ReadAt, Size, Revoked, Upgrade,
    Revoke, upgrade, revokeVoluntarily, promoteToMostRecent, revoked, Size,
    mu_Lock, mu_Unlock, file_Read, file_Seek, file_ReadAt, file_Close;
    steady_tac.
Qed.

Lemma evolves_run (ops : list op) s :
  Forall (evolves s) (run ops s).
Proof.
  revert s. induction ops as [|o ops IH]; intros s; simpl; [constructor|].
  pose proof (steady_perform o s) as Ho.
  destruct (perform o s) as [u s'|msg s'|s']; simpl in Ho;
    try (by repeat constructor).
  constructor; [done|].
  eapply Forall_impl; [apply IH|]. intros s2 H2. by eapply evolves_trans.
Qed.

Lemma revoked_in_spec rl s b :
  revoked_in rl s = Some b ↔
  ∃ l, leases s !! rl = Some l ∧ b = bool_decide (rl_file l = None).
Proof.
  unfold revoked_in, revoked, bind, load_lease, ret.
  destruct (leases s !! rl) as [l|]; simpl; split.
  - intros [= <-]. eauto.
  - intros (l' & [= <-] & ->). done.
  - done.
  - by intros (l' & ? & _).
Qed.

Lemma evolves_revoked rl s s' :
  evolves s s' → revoked_in rl s = Some true → revoked_in rl s' = Some true.
Proof.
  intros Hev (l & Hl & Hb)%revoked_in_spec.
  destruct (Hev rl l Hl) as (l' & Hl' & _ & _ & Hf).
  apply revoked_in_spec. exists l'. split; [done|].
  symmetry in Hb. apply bool_decide_eq_true in Hb.
  symmetry. apply bool_decide_eq_true. auto.
Qed.

Lemma run_cons (o : op) (ops : list op) s :
  run (o :: ops) s
  = final (perform o s)
    :: match perform o s with
       | Returns _ s' => run ops s'
       | _ => []
       end.
Proof. simpl. by destruct (perform o s). Qed.

Lemma revocations_cons rl s1 s2 (h : list (State FS)) :
  revocations rl (s1 :: s2 :: h)
  = (if decide (revoked_in rl s1 = Some false ∧ revoked_in rl s2 = Some true)
     then 1 else 0) + revocations rl (s2 :: h).
Proof. reflexivity. Qed.

Lemma resurrections_cons rl s1 s2 (h : list (State FS)) :
  resurrections rl (s1 :: s2 :: h)
  = (if decide (revoked_in rl s1 = Some true ∧ revoked_in rl s2 ≠ Some true)
     then 1 else 0) + resurrections rl (s2 :: h).
Proof. reflexivity. Qed.

Lemma perform_revoked (o : op) rl s :
  revoked_in rl s = Some true → revoked_in rl (final (perform o s)) = Some true.
Proof. apply evolves_revoked, steady_perform. Qed.

Lemma revocations_after_revoked (ops : list op) rl s :
  revoked_in rl s = Some true → revocations rl (s :: run ops s) = 0.
Proof.
  revert s. induction ops as [|o ops IH]; intros s Hrev; [done|].
  rewrite run_cons, revocations_cons.
  rewrite decide_False by (intros [? _]; congruence).
  pose proof (perform_revoked o rl s Hrev) as Hrev'.
  destruct (perform o s) as [u s'|msg s'|s']; cbn [final] in *;
    [by rewrite IH|done..].
Qed.

Lemma revocations_at_most_one (ops : list op) rl s :
  revocations rl (s :: run ops s) ≤ 1.
Proof.
  revert s. induction ops as [|o ops IH]; intros s; [simpl; lia|].
  rewrite run_cons, revocations_cons.
  case_decide as Hflip.
  - destruct Hflip as [_ Hrev'].
    destruct (perform o s) as [u s'|msg s'|s']; cbn [final] in *;
      try (simpl; lia).
    by rewrite revocations_after_revoked.
  - destruct (perform o s) as [u s'|msg s'|s']; cbn [final];
      try (simpl; lia).
    apply IH.
Qed.

Lemma no_resurrection (ops : list op) rl s :
  resurrections rl (s :: run ops s) = 0.
Proof.
  revert s. induction ops as [|o ops IH]; intros s; [done|].
  rewrite run_cons, resurrections_cons.
  rewrite decide_False
    by (intros [Hrev Hno]; apply Hno; by apply perform_revoked).
  destruct (perform o s) as [u s'|msg s'|s']; cbn [final];
    [by rewrite IH|done..].
Qed.

(** C2. A lease in the store is in exactly one of two states, and
    [revoked()] tells which: it answers true exactly when the file is
    absent and false exactly when it is present.  Along every history of
    calls (constructor, interface methods, [release], on this lease or any
    other) a lease that is revoked stays revoked, it goes from valid to
    revoked at most once and never back. *)
Theorem revoked_state_is_monotonic (ops : list op) s rl :
  (∀ l, leases s !! rl = Some l →
     ∃ b, revoked rl s = Returns b s
          ∧ (b = true ↔ rl_file l = None)
          ∧ (b = false ↔ is_Some (rl_file l)))
  ∧ (revoked_in rl s = Some true →
       Forall (λ s', revoked_in rl s' = Some true) (run ops s))
  ∧ revocations rl (s :: run ops s) ≤ 1
  ∧ resurrections rl (s :: run ops s) = 0.
Proof.
  split; [|split; [|split]].
  - intros l Hl. exists (bool_decide (rl_file l = None)).
    unfold revoked, bind, load_lease, ret. rewrite Hl. split; [done|].
    destruct (rl_file l) as [f|]; simpl; split; split; done.
  - intros Hrev. eapply Forall_impl; [apply evolves_run|].
    intros s' Hev. by eapply evolves_revoked.
  - apply revocations_at_most_one.
  - apply no_resurrection.
Qed.

Lemma Size_eq rl l s : leases s !! rl = Some l → Size rl s = Returns (rl_size l) s.
Proof. intros Hl. unfold Size, bind, load_lease, ret. by rewrite Hl. Qed.

(** C4. [Size] returns the [size] field and leaves the state as it is: it
    takes no lock (and returns even while the lease's lock is held).  For a
    lease made by [newReadLease], along every history of calls, revocation
    included, [Size] returns the size given at creation. *)
Theorem Size_is_fixed_at_creation s rl :
  (∀ l, leases s !! rl = Some l → Size rl s = Returns (rl_size l) s)
  ∧ filter (λ e, is_lock_event e = true) (new_events s (final (Size rl s))) = []
  ∧ (∀ (size : Z) (leaser : addr) (file : option File) s0 (ops : list op),
       newReadLease size leaser file s = Returns rl s0 →
       Forall (λ s', Size rl s' = Returns size s') (s0 :: run ops s0)).
Proof.
  split; [|split].
  - intros l. apply Size_eq.
  - unfold Size, bind, load_lease, ret.
    destruct (leases s !! rl); simpl; by rewrite new_events_same.
  - intros size leaser file s0 ops Hnew.
    unfold newReadLease in Hnew. injection Hnew as <- <-.
    set (rl := fresh (dom (leases s))).
    set (s0 := mkState _ _ _ _).
    assert (leases s0 !! rl = Some (mkReadLease false size leaser file)) as Hl0
      by apply lookup_insert_eq.
    constructor; [by rewrite (Size_eq _ _ _ Hl0)|].
    eapply Forall_impl; [apply evolves_run|].
    intros s' Hev. destruct (Hev _ _ Hl0) as (l' & Hl' & Hsz & _).
    simpl in Hsz. rewrite (Size_eq _ _ _ Hl'). by rewrite Hsz.
Qed.

(** ** [Upgrade] *)

Lemma Upgrade_untracked s rl l pl :
  leases s !! rl = Some l → leasers s !! rl_leaser l = Some pl →
  fl_mu pl = false → rl ∉ lruList pl →
  Upgrade rl s
  = Returns (None, Some RevokedError)
      (log [EvLock (PoolMu (rl_leaser l)); EvUnlock (PoolMu (rl_leaser l))] s).
Proof.
  intros Hl Hpl Hmu Hout.
  unfold Upgrade, upgrade, mu_Lock, mu_Unlock, bind, load_lease, load_leaser,
    store_leaser, emit, ret, log.
  rewrite Hl. cbn beta iota. rewrite Hpl. cbn beta iota. rewrite Hmu.
  simpl. rewrite lookup_insert_eq. simpl.
  rewrite bool_decide_eq_false_2 by done. simpl.
  rewrite lookup_insert_eq. simpl.
  rewrite insert_insert_eq, <- !app_assoc. simpl.
  rewrite insert_id; [done|]. rewrite Hpl. by destruct pl; simplify_eq/=.
Qed.

Lemma Upgrade_tracked s rl l pl f :
  leases s !! rl = Some l → rl_Mu l = false → rl_file l = Some f →
  leasers s !! rl_leaser l = Some pl → fl_mu pl = false → rl ∈ lruList pl →
  Upgrade rl s
  = Returns (Some (mkReadWriteLease (rl_leaser l) (rl_size l) (Some f)), None)
      (mkState
         (<[rl := mkReadLease false (rl_size l) (rl_leaser l) None]> (leases s))
         (<[rl_leaser l := mkFileLeaser false (byteLimit pl)
                             (wrap64 (usedBytes pl - rl_size l))
                             (filter (λ x, x ≠ rl) (lruList pl))]> (leasers s))
         (fs s)
         (trace s ++ [EvLock (PoolMu (rl_leaser l)); EvUnlock (PoolMu (rl_leaser l));
                      EvLock (LeaseMu rl); EvUnlock (LeaseMu rl)])).
Proof.
  intros Hl HMu Hf Hpl Hmu Hin.
  unfold Upgrade, upgrade, Size, release, revoked, Mu_Lock, Mu_Unlock, mu_Lock,
    mu_Unlock, defer, bind, load_lease, store_lease, load_leaser, store_leaser,
    emit, ret, panic.
  rewrite Hl. cbn beta iota. rewrite Hpl. cbn beta iota. rewrite Hmu.
  simpl. rewrite lookup_insert_eq. simpl.
  rewrite bool_decide_eq_true_2 by done. simpl.
  rewrite Hl. simpl. rewrite lookup_insert_eq. simpl.
  rewrite Hl. simpl. rewrite HMu. simpl.
  rewrite !lookup_insert_eq. simpl. rewrite Hf. simpl.
  rewrite !lookup_insert_eq. simpl.
  rewrite !lookup_insert_eq. simpl.
  rewrite !insert_insert_eq, <- !app_assoc. simpl. reflexivity.
Qed.

(** [Upgrade] on a lease that is tracked exactly when its file is present:
    the step used at every state the Pool can reach. *)
Lemma Upgrade_under_tracking s rl l pl :
  leases s !! rl = Some l → rl_Mu l = false →
  leasers s !! rl_leaser l = Some pl → fl_mu pl = false →
  (rl ∈ lruList pl ↔ is_Some (rl_file l)) →
  (rl_file l = None →
     ∃ s', Upgrade rl s = Returns (None, Some RevokedError) s'
           ∧ leases s' = leases s)
  ∧ (∀ f, rl_file l = Some f →
       ∃ rwl s',
         Upgrade rl s = Returns (Some rwl, None) s'
         ∧ rwl_file rwl = Some f
         ∧ revoked rl s' = Returns true s'
         ∧ no_file_io s s'
         ∧ ∃ s'', Upgrade rl s' = Returns (None, Some RevokedError) s''
                  ∧ revoked rl s'' = Returns true s'').
Proof.
  intros Hl HMu Hpl Hmu Hinv. split.
  - intros Hf. rewrite (Upgrade_untracked s rl l pl); try done.
    + by eexists.
    + rewrite Hinv, Hf. by intros [? ?].
  - intros f Hf.
    assert (rl ∈ lruList pl) as Hin by (apply Hinv; by rewrite Hf).
    rewrite (Upgrade_tracked s rl l pl f) by done.
    eexists _, _. split; [reflexivity|]. split; [reflexivity|].
    set (s' := mkState _ _ _ _).
    assert (leases s' !! rl = Some (mkReadLease false (rl_size l) (rl_leaser l) None))
      as Hl' by apply lookup_insert_eq.
    assert (revoked rl s' = Returns true s') as Hrev
      by (unfold revoked, bind, load_lease, ret; by rewrite Hl').
    split; [exact Hrev|]. split.
    { split; [reflexivity|]. unfold s'. by rewrite new_events_app. }
    eexists. split.
    + eapply (Upgrade_untracked s' rl); [exact Hl'|apply lookup_insert_eq|done|].
      simpl. rewrite list_elem_of_filter. by intros [? _].
    + unfold revoked, bind, load_lease, ret, log. simpl.
      by rewrite lookup_insert_eq.
Qed.

(** * Further properties of [read_lease.go] *)

(** ** [Revoked] *)

Lemma Revoked_eq rl s :
  Revoked rl s =
  match leases s !! rl with
  | None => Panics nil_deref s
  | Some l =>
      if rl_Mu l then Blocks s
      else Returns (bool_decide (rl_file l = None))
             (log [EvLock (LeaseMu rl); EvUnlock (LeaseMu rl)] s)
  end.
Proof.
  unfold Revoked, Mu_Lock, Mu_Unlock, revoked, load_lease, store_lease, emit,
    defer, bind, ret, log.
  destruct (leases s !! rl) as [l|] eqn:Hl; [|done].
  destruct l as [m sz fl f]. simpl. destruct m; [done|]. simpl.
  rewrite !lookup_insert_eq. simpl. rewrite lookup_insert_eq. simpl.
  rewrite insert_insert_eq, insert_id by done.
  by rewrite <- !app_assoc.
Qed.

(** X1. [Revoked] on a lease whose lock is free answers true exactly when
    the file is nil, which is what the helper [revoked] answers; it takes
    and releases the lease lock and nothing else: leases, leasers and file
    layer are what they were, and the log gains the two lock events only
    (no promotion, no file call). *)
Theorem Revoked_reports_state s rl l :
  leases s !! rl = Some l → rl_Mu l = false →
  ∃ b s', Revoked rl s = Returns b s'
          ∧ (b = true ↔ rl_file l = None)
          ∧ revoked rl s = Returns b s
          ∧ leases s' = leases s ∧ leasers s' = leasers s ∧ fs s' = fs s
          ∧ new_events s s' = [EvLock (LeaseMu rl); EvUnlock (LeaseMu rl)].
Proof.
  intros Hl HMu. rewrite Revoked_eq, Hl, HMu.
  eexists _, _. split; [reflexivity|]. split.
  { by rewrite bool_decide_eq_true. }
  split.
  { unfold revoked, bind, load_lease, ret. by rewrite Hl. }
  repeat split. by rewrite new_events_log.
Qed.

(** ** Lock discipline of the readers *)

Lemma guarded_outcome_discipline {A} rl (zero : A) g (ev : File → event) s :
  (∀ f, is_file_event (ev f) = true) →
  file_io_guarded rl false (new_events s (final (guarded_outcome rl zero g ev s))) = true
  ∧ held_after [] (new_events s (final (guarded_outcome rl zero g ev s))) = [].
Proof.
  intros Hev. unfold guarded_outcome.
  destruct (leases s !! rl) as [l|]; cbn [final]; [|by rewrite new_events_same].
  destruct (rl_Mu l); cbn [final]; [by rewrite new_events_same|].
  destruct (rl_file l) as [f|]; cbn [final].
  - rewrite new_events_app. simpl.
    rewrite !bool_decide_eq_true_2 by done. rewrite (Hev f). simpl.
    specialize (Hev f).
    destruct (ev f); try discriminate Hev; simpl;
      by rewrite ?bool_decide_eq_true_2, filter_ne_singleton.
  - rewrite new_events_log. simpl.
    by rewrite ?bool_decide_eq_true_2, filter_ne_singleton.
Qed.

Lemma reader_outcome_discipline {A} rl (zero : A) g (ev : File → event) s :
  (∀ f, is_file_event (ev f) = true) →
  file_io_guarded rl false (new_events s (final (reader_outcome rl zero g ev s))) = true
  ∧ held_after [] (new_events s (final (reader_outcome rl zero g ev s))) = [].
Proof.
  intros Hev. unfold reader_outcome.
  destruct (leases s !! rl) as [l|] eqn:Hl; cbn [final]; [|by rewrite new_events_same].
  destruct (leasers s !! rl_leaser l) as [pl|]; cbn [final];
    [|by rewrite new_events_log].
  destruct (fl_mu pl); cbn [final]; [by rewrite new_events_log|].
  unfold guarded_outcome.
  change (leases (promoted (rl_leaser l) rl pl s)) with (leases s). rewrite Hl.
  destruct (rl_Mu l); cbn [final].
  { unfold promoted. rewrite new_events_app. simpl.
    by rewrite filter_ne_singleton. }
  destruct (rl_file l) as [f|]; cbn [final].
  - rewrite new_events_promoted. simpl.
    rewrite !bool_decide_eq_true_2 by done. rewrite (Hev f). simpl.
    specialize (Hev f).
    destruct (ev f); try discriminate Hev; simpl;
      by rewrite ?bool_decide_eq_true_2, !filter_ne_singleton.
  - unfold log. rewrite new_events_promoted. simpl.
    by rewrite ?bool_decide_eq_true_2, !filter_ne_singleton.
Qed.

(** X3. In every execution of [Read], [Seek] and [ReadAt] (returning,
    panicking or blocked) each call into the file layer happens while the
    call holds the lock of the lease, and the execution ends with no lock
    held: what [Lock] took, the deferred [Unlock] gave back. *)
Theorem file_io_only_under_lease_lock s rl (buf : list byte) (offset whence off : Z) :
  (file_io_guarded rl false (new_events s (final (Read rl buf s))) = true
   ∧ held_after [] (new_events s (final (Read rl buf s))) = [])
  ∧ (file_io_guarded rl false (new_events s (final (Seek rl offset whence s))) = true
     ∧ held_after [] (new_events s (final (Seek rl offset whence s))) = [])
  ∧ (file_io_guarded rl false (new_events s (final (ReadAt rl buf off s))) = true
     ∧ held_after [] (new_events s (final (ReadAt rl buf off s))) = []).
Proof.
  rewrite Read_eq, Seek_eq, ReadAt_eq.
  split; [|split].
  - by apply reader_outcome_discipline.
  - by apply guarded_outcome_discipline.
  - by apply reader_outcome_discipline.
Qed.

Lemma reader_outcome_promotes {A} rl l (zero : A) g (ev : File → event) s :
  (∀ f, is_file_event (ev f) = true) →
  leases s !! rl = Some l →
  filter (λ e, is_promote_event e = true)
    (new_events s (final (reader_outcome rl zero g ev s)))
  = [EvPromote (rl_leaser l) rl].
Proof.
  intros Hev Hl. unfold reader_outcome. rewrite Hl.
  destruct (leasers s !! rl_leaser l) as [pl|]; cbn [final];
    [|by rewrite new_events_log].
  destruct (fl_mu pl); cbn [final]; [by rewrite new_events_log|].
  unfold guarded_outcome.
  change (leases (promoted (rl_leaser l) rl pl s)) with (leases s). rewrite Hl.
  destruct (rl_Mu l); cbn [final].
  { unfold promoted. by rewrite new_events_app. }
  destruct (rl_file l) as [f|]; cbn [final].
  - rewrite new_events_promoted. specialize (Hev f).
    destruct (ev f); try discriminate Hev; done.
  - unfold log. by rewrite new_events_promoted.
Qed.

(** X4. [Read] and [ReadAt] on a lease in the store call
    [promoteToMostRecent] exactly once, on the lease's own leaser, in every
    execution: also when the lease is revoked and the call fails with
    [RevokedError], and when the call then blocks on the lease lock. *)
Theorem readers_promote_exactly_once s rl l (buf : list byte) (off : Z) :
  leases s !! rl = Some l →
  filter (λ e, is_promote_event e = true) (new_events s (final (Read rl buf s)))
  = [EvPromote (rl_leaser l) rl]
  ∧ filter (λ e, is_promote_event e = true) (new_events s (final (ReadAt rl buf off s)))
    = [EvPromote (rl_leaser l) rl].
Proof.
  intros Hl. rewrite Read_eq, ReadAt_eq.
  split; by apply reader_outcome_promotes.
Qed.

(** ** Edge cases: a nil file, a nil receiver *)

(** X5. [newReadLease] called with a nil file builds a lease that is
    revoked from the start: [revoked] and [Revoked] answer true, [Seek]
    fails with [RevokedError], [release] panics, and [Size] still answers
    the size passed in. *)
Theorem newReadLease_nil_file_is_revoked s (size : Z) (leaser : addr)
    (offset whence : Z) :
  ∃ rl s', newReadLease size leaser None s = Returns rl s'
           ∧ revoked rl s' = Returns true s'
           ∧ (∃ s'', Revoked rl s' = Returns true s'')
           ∧ (∃ s'', Seek rl offset whence s' = Returns (0%Z, Some RevokedError) s'')
           ∧ release rl s' = Panics "Already revoked" s'
           ∧ Size rl s' = Returns size s'.
Proof.
  eexists _, _. split; [reflexivity|].
  set (rl := fresh (dom (leases s))). set (s' := mkState _ _ _ _).
  assert (leases s' !! rl = Some (mkReadLease false size leaser None)) as Hl
    by apply lookup_insert_eq.
  split; [|split; [|split; [|split]]].
  - unfold revoked, bind, load_lease, ret. by rewrite Hl.
  - rewrite Revoked_eq, Hl. by eexists.
  - rewrite Seek_eq, (guarded_outcome_revoked rl _ _ _ _ _ Hl) by done.
    by eexists.
  - unfold release, revoked, bind, load_lease, ret, panic. by rewrite Hl.
  - by rewrite (Size_eq _ _ _ Hl).
Qed.

(** X6. Every method called through a pointer that refers to no lease (a
    nil receiver) panics with a nil dereference before it has done
    anything: the state is the one of the call. *)
Theorem calls_on_nil_lease_panic s rl (buf : list byte) (offset whence off : Z) :
  leases s !! rl = None →
  Read rl buf s = Panics nil_deref s
  ∧ Seek rl offset whence s = Panics nil_deref s
  ∧ ReadAt rl buf off s = Panics nil_deref s
  ∧ Size rl s = Panics nil_deref s
  ∧ Revoked rl s = Panics nil_deref s
  ∧ Upgrade rl s = Panics nil_deref s
  ∧ Revoke rl s = Panics nil_deref s
  ∧ release rl s = Panics nil_deref s.
Proof.
  intros Hl.
  rewrite Read_eq, Seek_eq, ReadAt_eq, Revoked_eq.
  unfold reader_outcome, guarded_outcome, Size, Upgrade, Revoke, release,
    revoked, bind, load_lease.
  rewrite Hl. done.
Qed.

(** ** Calls in sequence *)

Lemma callable_after_release s rl l (leasers' : gmap addr fileLeaser) (w : FS)
    (t : list event) :
  callable s rl l → leasers' = leasers s →
  callable
    (mkState (<[rl := mkReadLease (rl_Mu l) (rl_size l) (rl_leaser l) None]> (leases s))
       leasers' w t)
    rl (mkReadLease (rl_Mu l) (rl_size l) (rl_leaser l) None).
Proof.
  intros (Hl & HMu & pl & Hpl & Hmu) ->. split; [apply lookup_insert_eq|].
  split; [done|]. by exists pl.
Qed.

(** X7. Once [release] has taken the file of a valid, callable lease, the
    lease behaves as revoked: [Read], [Seek] and [ReadAt] return
    [RevokedError] without a call into the file layer, [Revoked] answers
    true, [Size] answers the same size as before, and a second [release]
    panics. *)
Theorem release_then_calls s rl l f (buf : list byte) (offset whence off : Z) :
  callable s rl l → rl_file l = Some f →
  ∃ s1, release rl s = Returns (Some f) s1
        ∧ (∃ s2, Read rl buf s1 = Returns (buf, 0%Z, Some RevokedError) s2
                 ∧ no_file_io s s2)
        ∧ (∃ s2, Seek rl offset whence s1 = Returns (0%Z, Some RevokedError) s2
                 ∧ no_file_io s s2)
        ∧ (∃ s2, ReadAt rl buf off s1 = Returns (buf, 0%Z, Some RevokedError) s2
                 ∧ no_file_io s s2)
        ∧ (∃ s2, Revoked rl s1 = Returns true s2)
        ∧ Size rl s1 = Returns (rl_size l) s1
        ∧ release rl s1 = Panics "Already revoked" s1.
Proof.
  intros Hc Hf.
  pose proof Hc as (Hl & HMu & _).
  set (l1 := mkReadLease (rl_Mu l) (rl_size l) (rl_leaser l) None).
  set (s1 := mkState (<[rl := l1]> (leases s)) (leasers s) (fs s) (trace s)).
  assert (release rl s = Returns (Some f) s1) as Hrel.
  { unfold release, revoked, bind, load_lease, store_lease, ret.
    rewrite Hl. simpl. rewrite Hf. simpl. by rewrite Hl, Hf. }
  assert (callable s1 rl l1) as Hc1 by by apply callable_after_release.
  pose proof Hc1 as (Hl1 & HMu1 & _).
  destruct (reader_outcome_callable rl l1 (buf, 0%Z, Some RevokedError)
              (λ f w, as_error (os_Read f buf w)) EvFileRead s1 Hc1)
    as (pl & Hpl & Hmu & HR).
  destruct (reader_outcome_callable rl l1 (buf, 0%Z, Some RevokedError)
              (λ f w, as_error (os_ReadAt f buf off w)) EvFileReadAt s1 Hc1)
    as (pl' & Hpl' & _ & HRA).
  assert (pl' = pl) as -> by congruence.
  exists s1. split; [exact Hrel|].
  split; [|split; [|split; [|split; [|split]]]].
  - rewrite Read_eq, HR, (guarded_outcome_revoked rl l1) by done.
    eexists. split; [reflexivity|]. split; [reflexivity|].
    unfold new_events, log, promoted, s1. simpl.
    by rewrite <- !app_assoc, drop_app_length.
  - rewrite Seek_eq, (guarded_outcome_revoked rl l1) by done.
    eexists. split; [reflexivity|]. split; [reflexivity|].
    unfold new_events, log, s1. simpl. by rewrite drop_app_length.
  - rewrite ReadAt_eq, HRA, (guarded_outcome_revoked rl l1) by done.
    eexists. split; [reflexivity|]. split; [reflexivity|].
    unfold new_events, log, promoted, s1. simpl.
    by rewrite <- !app_assoc, drop_app_length.
  - rewrite Revoked_eq, Hl1, HMu1. by eexists.
  - by rewrite (Size_eq _ _ _ Hl1).
  - unfold release, revoked, bind, load_lease, ret, panic. by rewrite Hl1.
Qed.

(** X8. The lease keeps no position and no data of its own: after a [Seek]
    on a valid, callable lease, a [Read] returns what the file layer
    answers in the state the [Seek] left, and the file layer has been
    called exactly twice, in that order. *)
Theorem Seek_then_Read_thread_the_file s rl l f (buf : list byte) (offset whence : Z) :
  callable s rl l → rl_file l = Some f →
  ∃ s1 s2,
    Seek rl offset whence s
    = Returns ((os_Seek f offset whence (fs s)).1.1,
               OsError <$> (os_Seek f offset whence (fs s)).1.2) s1
    ∧ Read rl buf s1
      = Returns ((os_Read f buf (os_Seek f offset whence (fs s)).2).1.1,
                 OsError <$> (os_Read f buf (os_Seek f offset whence (fs s)).2).1.2) s2
    ∧ fs s2 = (os_Read f buf (os_Seek f offset whence (fs s)).2).2
    ∧ filter (λ e, is_file_event e = true) (new_events s s2)
      = [EvFileSeek f; EvFileRead f]
    ∧ callable s2 rl l.
Proof.
  intros Hc Hf. pose proof Hc as (Hl & HMu & pl & Hpl & Hmu).
  rewrite Seek_eq, (guarded_outcome_valid rl l f) by done. cbn [as_error fst snd].
  set (s1 := mkState _ _ _ _).
  assert (callable s1 rl l) as Hc1 by by eapply callable_same_stores.
  destruct (reader_outcome_callable rl l (buf, 0%Z, Some RevokedError)
              (λ f w, as_error (os_Read f buf w)) EvFileRead s1 Hc1)
    as (pl1 & Hpl1 & Hmu1 & HR).
  pose proof (callable_promoted s1 rl l pl1 Hc1 Hpl1) as Hc2.
  eexists _, _. split; [reflexivity|].
  rewrite Read_eq, HR, (guarded_outcome_valid rl l f) by done.
  split; [reflexivity|]. split; [reflexivity|]. split.
  - unfold promoted, s1, new_events. simpl.
    rewrite <- !app_assoc, drop_app_length. done.
  - by eapply callable_same_stores.
Qed.

(** ** No call leaves a mutex held *)

Ltac solve_locks_free :=
  split; simpl; rewrite ?insert_insert_eq; intros k v Hkv;
  try (apply lookup_insert_Some in Hkv as [[_ <-]|[_ Hkv]]; [done|]);
  eauto.

Lemma guarded_outcome_ends_unlocked {A} rl (zero : A) g (ev : File → event) s :
  locks_free s → ends_unlocked (guarded_outcome rl zero g ev s).
Proof.
  intros [HL HP]. unfold guarded_outcome.
  destruct (leases s !! rl) as [l|] eqn:Hl; simpl; [|done].
  rewrite (HL _ _ Hl). destruct (rl_file l); by simpl.
Qed.

Lemma reader_outcome_ends_unlocked {A} rl (zero : A) g (ev : File → event) s :
  locks_free s → ends_unlocked (reader_outcome rl zero g ev s).
Proof.
  intros [HL HP]. unfold reader_outcome.
  destruct (leases s !! rl) as [l|] eqn:Hl; simpl; [|done].
  destruct (leasers s !! rl_leaser l) as [pl|] eqn:Hpl; simpl; [|done].
  rewrite (HP _ _ Hpl).
  apply guarded_outcome_ends_unlocked. unfold promoted.
  solve_locks_free.
Qed.

Lemma Upgrade_ends_unlocked rl s : locks_free s → ends_unlocked (Upgrade rl s).
Proof.
  intros [HL HP].
  unfold Upgrade, upgrade, Size, release, revoked, Mu_Lock, Mu_Unlock, mu_Lock,
    mu_Unlock, defer, bind, load_lease, store_lease, load_leaser, store_leaser,
    emit, ret, panic.
  destruct (leases s !! rl) as [l|] eqn:Hl; cbn beta iota; [|done].
  destruct (leasers s !! rl_leaser l) as [pl|] eqn:Hpl; cbn beta iota; [|done].
  rewrite (HP _ _ Hpl). simpl. rewrite lookup_insert_eq. simpl.
  destruct (bool_decide (rl ∈ lruList pl)); simpl.
  - rewrite Hl. simpl. rewrite lookup_insert_eq. simpl.
    rewrite Hl. simpl. rewrite (HL _ _ Hl). simpl.
    rewrite !lookup_insert_eq. simpl.
    destruct (rl_file l) as [f|]; simpl; rewrite !lookup_insert_eq; simpl;
      rewrite ?lookup_insert_eq; simpl; solve_locks_free.
  - rewrite lookup_insert_eq. simpl. solve_locks_free.
Qed.

Lemma Revoke_ends_unlocked rl s : locks_free s → ends_unlocked (Revoke rl s).
Proof.
  intros [HL HP].
  unfold Revoke, revokeVoluntarily, Size, release, revoked, Mu_Lock, Mu_Unlock,
    mu_Lock, mu_Unlock, file_Close, file_call, defer, bind, load_lease,
    store_lease, load_leaser, store_leaser, emit, ret, panic.
  destruct (leases s !! rl) as [l|] eqn:Hl; cbn beta iota; [|done].
  destruct (leasers s !! rl_leaser l) as [pl|] eqn:Hpl; cbn beta iota; [|done].
  rewrite (HP _ _ Hpl). simpl. rewrite lookup_insert_eq. simpl.
  destruct (bool_decide (rl ∈ lruList pl)); simpl.
  - rewrite Hl. simpl. rewrite lookup_insert_eq. simpl.
    rewrite Hl. simpl. rewrite (HL _ _ Hl). simpl.
    rewrite !lookup_insert_eq. simpl.
    destruct (rl_file l) as [f|]; simpl; rewrite !lookup_insert_eq; simpl;
      rewrite ?lookup_insert_eq; simpl; solve_locks_free.
  - rewrite lookup_insert_eq. simpl. solve_locks_free.
Qed.

Lemma void_ends_unlocked {A} (m : M FS A) s :
  ends_unlocked (m s) → ends_unlocked (void m s).
Proof. unfold void, bind, ret. by destruct (m s). Qed.

Lemma perform_ends_unlocked (o : op) s :
  locks_free s → ends_unlocked (perform o s).
Proof.
  intros Hfree. pose proof Hfree as [HL HP].
  destruct o; simpl; try apply void_ends_unlocked.
  - unfold newReadLease. solve_locks_free.
  - rewrite Read_eq. by apply reader_outcome_ends_unlocked.
  - rewrite Seek_eq. by apply guarded_outcome_ends_unlocked.
  - rewrite ReadAt_eq. by apply reader_outcome_ends_unlocked.
  - unfold Size, bind, load_lease, ret. by destruct (leases s !! rl).
  - rewrite Revoked_eq. destruct (leases s !! rl) as [l|] eqn:Hl; [|done].
    by rewrite (HL _ _ Hl).
  - by apply Upgrade_ends_unlocked.
  - by apply Revoke_ends_unlocked.
  - unfold release, revoked, bind, load_lease, store_lease, ret, panic.
    destruct (leases s !! rl) as [l|] eqn:Hl; simpl; [|done].
    destruct (bool_decide (rl_file l = None)); simpl; [done|].
    rewrite Hl. simpl. pose proof (HL _ _ Hl). solve_locks_free.
Qed.

(** X9. Used from a state in which no mutex is held, the calls never block
    and never leave a mutex held: along every history of calls
    (constructor, interface methods, [release]; [Upgrade], [Revoke] and the
    promotion go through the leaser as the specification describes it) each
    call returns or panics, and in the state it ends in every lease lock
    and every leaser lock is free again. *)
Theorem calls_never_leave_a_lock_held (ops : list op) s :
  locks_free s →
  blocked ops s = false ∧ Forall locks_free (run ops s).
Proof.
  revert s. induction ops as [|o ops IH]; intros s Hfree; [by split|].
  pose proof (perform_ends_unlocked o s Hfree) as Ho.
  simpl. destruct (perform o s) as [u s'|msg s'|s']; simpl in Ho; [|by auto|done].
  destruct (IH s' Ho) as [Hb Hr]. split; [done|by constructor].
Qed.

(** ** Calls that only read *)

Lemma guarded_outcome_leases {A} rl (zero : A) g (ev : File → event) s :
  leases (final (guarded_outcome rl zero g ev s)) = leases s.
Proof.
  unfold guarded_outcome. destruct (leases s !! rl) as [l|]; [|done].
  destruct (rl_Mu l); [done|]. by destruct (rl_file l).
Qed.

Lemma reader_outcome_leases {A} rl (zero : A) g (ev : File → event) s :
  leases (final (reader_outcome rl zero g ev s)) = leases s.
Proof.
  unfold reader_outcome. destruct (leases s !! rl) as [l|]; [|done].
  destruct (leasers s !! rl_leaser l) as [pl|]; [|done].
  destruct (fl_mu pl); [done|]. by rewrite guarded_outcome_leases.
Qed.

Lemma final_void {A} (m : M FS A) s : final (void m s) = final (m s).
Proof. unfold void, bind, ret. by destruct (m s). Qed.

Lemma perform_reading_lookup (o : op) rl l s :
  is_reading o = true → leases s !! rl = Some l →
  leases (final (perform o s)) !! rl = Some l.
Proof.
  intros Ho Hl. destruct o; try discriminate Ho; cbn [perform]; rewrite final_void.
  - unfold newReadLease. simpl. rewrite lookup_insert_ne; [done|].
    intros <-. pose proof (is_fresh (dom (leases s))) as Hfresh.
    by apply not_elem_of_dom in Hfresh; simplify_eq.
  - by rewrite Read_eq, reader_outcome_leases.
  - by rewrite Seek_eq, guarded_outcome_leases.
  - by rewrite ReadAt_eq, reader_outcome_leases.
  - unfold Size, bind, load_lease, ret. by destruct (leases s !! rl0).
  - rewrite Revoked_eq. destruct (leases s !! rl0) as [l0|]; [|done].
    by destruct (rl_Mu l0).
Qed.

(** X2. Only handing the file over revokes.  Along every history made of
    the constructor, [Read], [Seek], [ReadAt], [Size] and [Revoked], on
    this lease or on others, returning, panicking or blocked, a lease stays
    exactly what it was: same file, same size, same leaser, its lock as it
    was. *)
Theorem reading_calls_preserve_leases (ops : list op) s rl l :
  leases s !! rl = Some l →
  Forall (λ o, is_reading o = true) ops →
  Forall (λ s', leases s' !! rl = Some l) (run ops s).
Proof.
  intros Hl Hops. revert s Hl.
  induction Hops as [|o ops Ho Hops IH]; intros s Hl; [constructor|].
  pose proof (perform_reading_lookup o rl l s Ho Hl) as Hl'.
  simpl. destruct (perform o s) as [u s'|msg s'|s']; simpl in Hl';
    repeat constructor; auto.
Qed.

(** X10. While the lock of a lease is held, [Seek] and [Revoked] on it
    block at once, leaving the state untouched, and [Read] and [ReadAt] do
    not return either; none of them reaches the file layer.  [Size] alone
    returns. *)
Theorem held_lease_lock_blocks_readers s rl l (buf : list byte) (offset whence off : Z) :
  leases s !! rl = Some l → rl_Mu l = true →
  Seek rl offset whence s = Blocks s
  ∧ Revoked rl s = Blocks s
  ∧ (∀ r s', Read rl buf s ≠ Returns r s')
  ∧ (∀ r s', ReadAt rl buf off s ≠ Returns r s')
  ∧ no_file_io s (final (Read rl buf s))
  ∧ no_file_io s (final (ReadAt rl buf off s))
  ∧ Size rl s = Returns (rl_size l) s.
Proof.
  intros Hl HMu.
  assert (∀ {A} (zero : A) g (ev : File → event),
            (∀ r s', reader_outcome rl zero g ev s ≠ Returns r s')
            ∧ no_file_io s (final (reader_outcome rl zero g ev s))) as Hreader.
  { intros A zero g ev. unfold reader_outcome. rewrite Hl.
    destruct (leasers s !! rl_leaser l) as [pl|]; cbn [final].
    2: { split; [done|]. split; [done|]. by rewrite new_events_log. }
    destruct (fl_mu pl); cbn [final].
    { split; [done|]. split; [done|]. by rewrite new_events_log. }
    unfold guarded_outcome.
    change (leases (promoted (rl_leaser l) rl pl s)) with (leases s).
    rewrite Hl, HMu. cbn [final]. split; [done|]. split; [done|].
    unfold promoted. by rewrite new_events_app. }
  rewrite Seek_eq, Revoked_eq, Read_eq, ReadAt_eq. unfold guarded_outcome.
  rewrite Hl, HMu.
  split; [done|]. split; [done|].
  split; [apply Hreader|]. split; [apply Hreader|].
  split; [apply Hreader|]. split; [apply Hreader|].
  by apply Size_eq.
Qed.

(** * The states a Pool can reach *)

Lemma pool_invariant_empty s : leases s = ∅ → locks_free s → pool_invariant s.
Proof.
  intros Hempty Hfree. split; [done|].
  intros rl l Hl. by rewrite Hempty, lookup_empty in Hl.
Qed.

Lemma pool_invariant_stores s s' :
  leases s' = leases s → leasers s' = leasers s →
  pool_invariant s → pool_invariant s'.
Proof. unfold pool_invariant, locks_free. by intros -> ->. Qed.

Lemma elem_of_promote_lru (x rl : addr) (lru : list addr) :
  x ∈ promote_lru rl lru ↔ x ∈ lru.
Proof.
  unfold promote_lru. case_bool_decide as Hin; [|done].
  rewrite elem_of_app, list_elem_of_filter, list_elem_of_singleton.
  split; [by intros [[_ ?]| ->]|].
  intros Hx. destruct (decide (x = rl)); auto.
Qed.

Lemma pool_invariant_promoted s fl rl pl :
  pool_invariant s → leasers s !! fl = Some pl →
  pool_invariant (promoted fl rl pl s).
Proof.
  intros [[HL HP] Htr] Hpl. unfold promoted. split.
  - split; simpl; intros k v Hkv; [by eauto|].
    apply lookup_insert_Some in Hkv as [[_ <-]|[_ Hkv]]; [done|by eauto].
  - simpl. intros r l Hl. destruct (Htr r l Hl) as (pl0 & Hpl0 & Hiff).
    destruct (decide (rl_leaser l = fl)) as [Heq|Hne].
    + rewrite Heq in *. rewrite lookup_insert_eq. eexists. split; [done|].
      simpl. rewrite elem_of_promote_lru. by simplify_eq.
    + rewrite lookup_insert_ne by done. by exists pl0.
Qed.

Lemma pool_invariant_handed_over s rl l pl (used : Z) (w : FS) (t : list event) :
  pool_invariant s → leases s !! rl = Some l →
  leasers s !! rl_leaser l = Some pl →
  pool_invariant
    (mkState
       (<[rl := mkReadLease false (rl_size l) (rl_leaser l) None]> (leases s))
       (<[rl_leaser l := mkFileLeaser false (byteLimit pl) used
                           (filter (λ x, x ≠ rl) (lruList pl))]> (leasers s))
       w t).
Proof.
  intros [[HL HP] Htr] Hl Hpl. split.
  - split; simpl; intros k v Hkv;
      apply lookup_insert_Some in Hkv as [[_ <-]|[_ Hkv]]; by eauto.
  - simpl. intros r l0 Hl0.
    apply lookup_insert_Some in Hl0 as [[<- <-]|[Hne Hl0]]; simpl.
    + rewrite lookup_insert_eq. eexists. split; [done|]. simpl.
      rewrite list_elem_of_filter. split; [by intros [? _]|by intros [? ?]].
    + destruct (Htr r l0 Hl0) as (pl0 & Hpl0 & Hiff).
      destruct (decide (rl_leaser l0 = rl_leaser l)) as [Heq|Hnl].
      * rewrite Heq in *. rewrite lookup_insert_eq. eexists. split; [done|].
        simpl. rewrite list_elem_of_filter. simplify_eq.
        rewrite <- Hiff.
        split; [by intros [_ ?]|intros ?; split; [by intros ->|done]].
      * rewrite lookup_insert_ne by done. by exists pl0.
Qed.

Lemma guarded_outcome_leasers {A} rl (zero : A) g (ev : File → event) s :
  leasers (final (guarded_outcome rl zero g ev s)) = leasers s.
Proof.
  unfold guarded_outcome. destruct (leases s !! rl) as [l|]; [|done].
  destruct (rl_Mu l); [done|]. by destruct (rl_file l).
Qed.

Lemma reader_outcome_pool_invariant {A} rl (zero : A) g (ev : File → event) s :
  pool_invariant s → pool_invariant (final (reader_outcome rl zero g ev s)).
Proof.
  intros Hinv. unfold reader_outcome.
  destruct (leases s !! rl) as [l|]; [|done].
  destruct (leasers s !! rl_leaser l) as [pl|] eqn:Hpl; cbn [final];
    [|by eapply pool_invariant_stores].
  destruct (fl_mu pl); cbn [final]; [by eapply pool_invariant_stores|].
  eapply pool_invariant_stores;
    [apply guarded_outcome_leases|apply guarded_outcome_leasers|].
  by apply pool_invariant_promoted.
Qed.

Lemma Revoke_untracked s rl l pl :
  leases s !! rl = Some l → leasers s !! rl_leaser l = Some pl →
  fl_mu pl = false → rl ∉ lruList pl →
  Revoke rl s
  = Returns ()
      (log [EvLock (PoolMu (rl_leaser l)); EvUnlock (PoolMu (rl_leaser l))] s).
Proof.
  intros Hl Hpl Hmu Hout.
  unfold Revoke, revokeVoluntarily, mu_Lock, mu_Unlock, bind, load_lease,
    load_leaser, store_leaser, emit, ret, log.
  rewrite Hl. cbn beta iota. rewrite Hpl. cbn beta iota. rewrite Hmu.
  simpl. rewrite lookup_insert_eq. simpl.
  rewrite bool_decide_eq_false_2 by done. simpl.
  rewrite lookup_insert_eq. simpl.
  rewrite insert_insert_eq, <- !app_assoc. simpl.
  rewrite insert_id; [done|]. rewrite Hpl. by destruct pl; simplify_eq/=.
Qed.

Lemma Revoke_tracked s rl l pl f :
  leases s !! rl = Some l → rl_Mu l = false → rl_file l = Some f →
  leasers s !! rl_leaser l = Some pl → fl_mu pl = false → rl ∈ lruList pl →
  Revoke rl s
  = Returns ()
      (mkState
         (<[rl := mkReadLease false (rl_size l) (rl_leaser l) None]> (leases s))
         (<[rl_leaser l := mkFileLeaser false (byteLimit pl)
                             (wrap64 (usedBytes pl - rl_size l))
                             (filter (λ x, x ≠ rl) (lruList pl))]> (leasers s))
         (os_Close f (fs s))
         (trace s ++ [EvLock (PoolMu (rl_leaser l)); EvUnlock (PoolMu (rl_leaser l));
                      EvLock (LeaseMu rl); EvUnlock (LeaseMu rl); EvFileClose f])).
Proof.
  intros Hl HMu Hf Hpl Hmu Hin.
  unfold Revoke, revokeVoluntarily, Size, release, revoked, Mu_Lock, Mu_Unlock,
    mu_Lock, mu_Unlock, file_Close, file_call, defer, bind, load_lease,
    store_lease, load_leaser, store_leaser, emit, ret, panic.
  rewrite Hl. cbn beta iota. rewrite Hpl. cbn beta iota. rewrite Hmu.
  simpl. rewrite lookup_insert_eq. simpl.
  rewrite bool_decide_eq_true_2 by done. simpl.
  rewrite Hl. simpl. rewrite lookup_insert_eq. simpl.
  rewrite Hl. simpl. rewrite HMu. simpl.
  rewrite !lookup_insert_eq. simpl. rewrite Hf. simpl.
  rewrite !lookup_insert_eq. simpl.
  rewrite !lookup_insert_eq. simpl.
  rewrite !insert_insert_eq, <- !app_assoc. simpl. reflexivity.
Qed.

Lemma track_eq fl (size : Z) (f : File) s :
  track fl size f s =
  match leasers s !! fl with
  | None => Panics nil_deref s
  | Some pl =>
      if fl_mu pl then Blocks s
      else Returns (fresh (dom (leases s)))
             (mkState
                (<[fresh (dom (leases s)) := mkReadLease false size fl (Some f)]>
                   (leases s))
                (<[fl := mkFileLeaser false (byteLimit pl)
                           (wrap64 (usedBytes pl + size))
                           (lruList pl ++ [fresh (dom (leases s))])]> (leasers s))
                (fs s)
                (trace s ++ [EvLock (PoolMu fl); EvUnlock (PoolMu fl)]))
  end.
Proof.
  unfold track, newReadLease, mu_Lock, mu_Unlock, bind, load_leaser,
    store_leaser, emit, ret.
  destruct (leasers s !! fl) as [pl|] eqn:Hpl; [|done].
  destruct (fl_mu pl); [done|]. simpl.
  repeat (rewrite lookup_insert_eq; simpl).
  by rewrite !insert_insert_eq, <- !app_assoc.
Qed.

Lemma track_pool_invariant fl (size : Z) (f : File) s :
  pool_invariant s → pool_invariant (final (track fl size f s)).
Proof.
  intros Hinv. pose proof Hinv as [[HL HP] Htr]. rewrite track_eq.
  destruct (leasers s !! fl) as [pl|] eqn:Hpl; [|done].
  rewrite (HP _ _ Hpl). cbn [final].
  assert (leases s !! fresh (dom (leases s)) = None) as Hfresh
    by apply not_elem_of_dom, is_fresh.
  set (rl := fresh (dom (leases s))) in *. split.
  - split; simpl; intros k v Hkv;
      apply lookup_insert_Some in Hkv as [[_ <-]|[_ Hkv]]; by eauto.
  - simpl. intros r l0 Hl0.
    apply lookup_insert_Some in Hl0 as [[<- <-]|[Hne Hl0]]; simpl.
    + rewrite lookup_insert_eq. eexists. split; [done|]. simpl.
      rewrite elem_of_app, list_elem_of_singleton. split; [by eexists|by right].
    + destruct (Htr r l0 Hl0) as (pl0 & Hpl0 & Hiff).
      destruct (decide (rl_leaser l0 = fl)) as [Heq|Hnl].
      * rewrite Heq in *. rewrite lookup_insert_eq. eexists. split; [done|].
        simpl. rewrite elem_of_app, list_elem_of_singleton. simplify_eq.
        rewrite <- Hiff.
        split; [by intros [?| ->]|by left].
      * rewrite lookup_insert_ne by done. by exists pl0.
Qed.

Lemma perform_call_pool_invariant (c : pool_call) s :
  pool_invariant s → pool_invariant (final (perform_call c s)).
Proof.
  intros Hinv. pose proof Hinv as [[HL HP] Htr].
  destruct c; cbn [perform_call perform]; rewrite ?final_void.
  - by apply track_pool_invariant.
  - rewrite Read_eq. by apply reader_outcome_pool_invariant.
  - rewrite Seek_eq.
    eapply pool_invariant_stores;
      [apply guarded_outcome_leases|apply guarded_outcome_leasers|done].
  - rewrite ReadAt_eq. by apply reader_outcome_pool_invariant.
  - unfold Size, bind, load_lease, ret. by destruct (leases s !! rl).
  - rewrite Revoked_eq. destruct (leases s !! rl) as [l|]; [|done].
    destruct (rl_Mu l); [done|]. by eapply pool_invariant_stores.
  - destruct (leases s !! rl) as [l|] eqn:Hl.
    2: { unfold Upgrade, bind, load_lease. by rewrite Hl. }
    destruct (Htr rl l Hl) as (pl & Hpl & Hiff).
    destruct (rl_file l) as [f|] eqn:Hf.
    + rewrite (Upgrade_tracked s rl l pl f)
        by (try (apply Hiff; by eexists); eauto).
      by apply pool_invariant_handed_over.
    + rewrite (Upgrade_untracked s rl l pl)
        by (try (rewrite Hiff; by intros [? ?]); eauto).
      by eapply pool_invariant_stores.
  - destruct (leases s !! rl) as [l|] eqn:Hl.
    2: { unfold Revoke, bind, load_lease. by rewrite Hl. }
    destruct (Htr rl l Hl) as (pl & Hpl & Hiff).
    destruct (rl_file l) as [f|] eqn:Hf.
    + rewrite (Revoke_tracked s rl l pl f)
        by (try (apply Hiff; by eexists); eauto).
      by apply pool_invariant_handed_over.
    + rewrite (Revoke_untracked s rl l pl)
        by (try (rewrite Hiff; by intros [? ?]); eauto).
      by eapply pool_invariant_stores.
Qed.

Lemma pool_run_invariant (cs : list pool_call) s :
  pool_invariant s → Forall pool_invariant (pool_run cs s).
Proof.
  revert s. induction cs as [|c cs IH]; intros s Hinv; [constructor|].
  pose proof (perform_call_pool_invariant c s Hinv) as Hc.
  cbn [pool_run].
  destruct (perform_call c s) as [u s'|msg s'|s']; cbn [final] in Hc.
  - constructor; [done|by apply IH].
  - constructor; [done|constructor].
  - constructor; [done|constructor].
Qed.

(** C5.  Take a Pool that has no read lease yet and holds no lock, and let
    it run: it tracks fresh leases, and the methods of the interface are
    called on them in any order ([Revoke] standing for evictions too).  In
    every state it passes through, [Upgrade] on a revoked lease returns no
    lease and the [RevokedError] marker; on a valid lease it returns a
    Write Lease owning the very file the read lease held, without a call
    into the file layer, and leaves the read lease revoked, so that a
    second [Upgrade] fails with [RevokedError]. *)
Theorem Upgrade_succeeds_once (cs : list pool_call) s0 :
  leases s0 = ∅ → locks_free s0 →
  Forall
    (λ s, ∀ rl l, leases s !! rl = Some l →
       (rl_file l = None →
          ∃ s', Upgrade rl s = Returns (None, Some RevokedError) s'
                ∧ leases s' = leases s)
       ∧ (∀ f, rl_file l = Some f →
            ∃ rwl s',
              Upgrade rl s = Returns (Some rwl, None) s'
              ∧ rwl_file rwl = Some f
              ∧ revoked rl s' = Returns true s'
              ∧ no_file_io s s'
              ∧ ∃ s'', Upgrade rl s' = Returns (None, Some RevokedError) s''
                       ∧ revoked rl s'' = Returns true s''))
    (s0 :: pool_run cs s0).
Proof.
  intros Hempty Hfree.
  pose proof (pool_invariant_empty s0 Hempty Hfree) as Hinv0.
  eapply Forall_impl;
    [exact (Forall_cons_2 _ _ _ Hinv0 (pool_run_invariant cs s0 Hinv0))|].
  intros s [[HL HP] Htr] rl l Hl.
  destruct (Htr rl l Hl) as (pl & Hpl & Hiff).
  apply (Upgrade_under_tracking s rl l pl); eauto.
Qed.

End LeaseProofs.

(** * The embedding at work on the in-memory file layer *)

Example Read_valid_example :
  (let o := Read (file_layer := memfs) 1%positive [x00; x00]%byte st_valid in
   match o with
   | Returns r s' => Some (r, trace s', fs s' !! 7%positive)
   | _ => None
   end)
  = Some (([x61; x62]%byte, 2%Z, None),
          [EvPromote 1 1; EvLock (PoolMu 1); EvUnlock (PoolMu 1);
           EvLock (LeaseMu 1); EvFileRead 7; EvUnlock (LeaseMu 1)]%positive,
          Some (mkMemfile [x61; x62; x63]%byte 2%Z)).
Proof. vm_compute. reflexivity. Qed.

Example sample_history_revokes_once :
  (λ s, revoked_in 1%positive s) <$> (st_valid :: run (file_layer := memfs) sample_ops st_valid)
  = [Some false; Some false; Some true; Some true; Some true]
  ∧ revocations 1%positive (st_valid :: run (file_layer := memfs) sample_ops st_valid) = 1.
Proof. split; vm_compute; reflexivity. Qed.

Lemma callable_st_revoked : callable st_revoked 1%positive lease_revoked.
Proof.
  split; [reflexivity|]. split; [reflexivity|].
  exists pool_empty. split; reflexivity.
Defined.

Lemma callable_st_valid : callable st_valid 1%positive lease_valid.
Proof.
  split; [reflexivity|]. split; [reflexivity|].
  exists pool_tracking. split; reflexivity.
Defined.

Lemma revoked_lease_calls_fail_witness :
  callable st_revoked 1%positive lease_revoked
  ∧ rl_file lease_revoked = None
  ∧ (∃ r s', Read (file_layer := memfs) 1%positive [x00]%byte st_revoked = Returns r s'
             ∧ r.2 = Some RevokedError ∧ no_file_io st_revoked s'
             ∧ callable s' 1%positive lease_revoked).
Proof.
  split; [exact callable_st_revoked|]. split; [reflexivity|].
  exact (proj1 (revoked_lease_calls_fail (file_layer := memfs) st_revoked
                  1%positive lease_revoked [x00]%byte 0%Z 0%Z 0%Z
                  callable_st_revoked eq_refl)).
Defined.

Lemma valid_lease_calls_delegate_witness :
  callable st_valid 1%positive lease_valid
  ∧ rl_file lease_valid = Some 7%positive
  ∧ (∃ s', Seek (file_layer := memfs) 1%positive 2%Z 0%Z st_valid
           = Returns ((mem_Seek 7%positive 2%Z 0%Z disk0).1.1,
                      OsError <$> (mem_Seek 7%positive 2%Z 0%Z disk0).1.2) s'
           ∧ fs s' = (mem_Seek 7%positive 2%Z 0%Z disk0).2
           ∧ filter (λ e, is_file_event e = true) (new_events st_valid s')
             = [EvFileSeek 7%positive]).
Proof.
  split; [exact callable_st_valid|]. split; [reflexivity|].
  exact (proj1 (proj2 (valid_lease_calls_delegate (file_layer := memfs) st_valid
                  1%positive lease_valid 7%positive [x00]%byte 2%Z 0%Z 0%Z
                  callable_st_valid eq_refl))).
Defined.

Lemma revoked_failure_returns_zero_witness :
  ∃ r s',
    Seek (file_layer := memfs) 1%positive 2%Z 0%Z st_revoked = Returns r s'
    ∧ r.2 = Some RevokedError
    ∧ r.1 = 0%Z ∧ leases s' = leases st_revoked.
Proof.
  eexists _, _. split; [reflexivity|]. split; [reflexivity|].
  exact (proj1 (proj2 (revoked_failure_returns_zero (file_layer := memfs)
                  st_revoked 1%positive [x00]%byte 2%Z 0%Z 0%Z))
           _ _ eq_refl eq_refl).
Defined.

Lemma Seek_does_not_promote_witness :
  callable st_valid 1%positive lease_valid
  ∧ ∃ r s1 r2 s2 r3 s3,
      Seek (file_layer := memfs) 1%positive 2%Z 0%Z st_valid = Returns r s1
      ∧ Read (file_layer := memfs) 1%positive [x00]%byte st_valid = Returns r2 s2
      ∧ ReadAt (file_layer := memfs) 1%positive [x00]%byte 1%Z st_valid = Returns r3 s3
      ∧ (r.2 = Some RevokedError ↔ rl_file lease_valid = None)
      ∧ (r2.2 = Some RevokedError ↔ rl_file lease_valid = None)
      ∧ (r3.2 = Some RevokedError ↔ rl_file lease_valid = None).
Proof.
  split; [exact callable_st_valid|].
  exact (proj2 (proj2 (Seek_does_not_promote (file_layer := memfs) st_valid
                  1%positive [x00]%byte 2%Z 0%Z 1%Z))
           lease_valid callable_st_valid).
Defined.

Lemma promotion_before_lease_lock_witness :
  callable st_valid 1%positive lease_valid
  ∧ ∃ t t',
      new_events st_valid (final (Read (file_layer := memfs) 1%positive [x00]%byte st_valid))
      = [EvPromote 1 1; EvLock (PoolMu 1); EvUnlock (PoolMu 1); EvLock (LeaseMu 1)]%positive ++ t
      ∧ new_events st_valid (final (ReadAt (file_layer := memfs) 1%positive [x00]%byte 1%Z st_valid))
        = [EvPromote 1 1; EvLock (PoolMu 1); EvUnlock (PoolMu 1); EvLock (LeaseMu 1)]%positive ++ t'.
Proof.
  split; [exact callable_st_valid|].
  exact (proj2 (proj2 (proj2 (proj2
           (promotion_before_lease_lock (file_layer := memfs) st_valid
              1%positive [x00]%byte 1%Z))))
           lease_valid callable_st_valid).
Defined.

Lemma newReadLease_is_valid_witness :
  Some 9%positive ≠ None
  ∧ ∃ rl s', newReadLease 5%Z 1%positive (Some 9%positive) st_valid = Returns rl s'
             ∧ leases st_valid !! rl = None
             ∧ revoked rl s' = Returns false s'
             ∧ Size rl s' = Returns 5%Z s'.
Proof.
  split; [discriminate|].
  apply (newReadLease_is_valid st_valid 5%Z 1%positive (Some 9%positive)).
  discriminate.
Defined.

Lemma release_hands_over_the_file_witness :
  leases st_valid !! 1%positive = Some lease_valid
  ∧ rl_file lease_valid = Some 7%positive
  ∧ (∃ s', release 1%positive st_valid = Returns (Some 7%positive) s'
           ∧ leases s' = <[1%positive := mkReadLease false 3%Z 1%positive None]> (leases st_valid)
           ∧ revoked 1%positive s' = Returns true s'
           ∧ leasers s' = leasers st_valid ∧ fs s' = fs st_valid
           ∧ trace s' = trace st_valid)
  ∧ leases st_revoked !! 1%positive = Some lease_revoked
  ∧ rl_file lease_revoked = None
  ∧ release 1%positive st_revoked = Panics "Already revoked" st_revoked.
Proof.
  split; [reflexivity|]. split; [reflexivity|]. split.
  { exact (proj1 (release_hands_over_the_file st_valid 1%positive lease_valid eq_refl)
             7%positive eq_refl). }
  split; [reflexivity|]. split; [reflexivity|].
  exact (proj2 (release_hands_over_the_file st_revoked 1%positive lease_revoked eq_refl)
           eq_refl).
Defined.

Lemma revoked_state_is_monotonic_witness :
  leases st_valid !! 1%positive = Some lease_valid
  ∧ (∃ b, revoked 1%positive st_valid = Returns b st_valid
          ∧ (b = true ↔ rl_file lease_valid = None)
          ∧ (b = false ↔ is_Some (rl_file lease_valid)))
  ∧ revoked_in 1%positive st_revoked = Some true
  ∧ Forall (λ s', revoked_in 1%positive s' = Some true)
      (run (file_layer := memfs) sample_ops st_revoked)
  ∧ revocations 1%positive (st_valid :: run (file_layer := memfs) sample_ops st_valid) ≤ 1.
Proof.
  split; [reflexivity|]. split.
  { exact (proj1 (revoked_state_is_monotonic (file_layer := memfs) sample_ops
                    st_valid 1%positive) lease_valid eq_refl). }
  split; [reflexivity|]. split.
  { exact (proj1 (proj2 (revoked_state_is_monotonic (file_layer := memfs) sample_ops
                    st_revoked 1%positive)) eq_refl). }
  exact (proj1 (proj2 (proj2 (revoked_state_is_monotonic (file_layer := memfs)
                  sample_ops st_valid 1%positive)))).
Defined.

Lemma Size_is_fixed_at_creation_witness :
  leases st_revoked !! 1%positive = Some lease_revoked
  ∧ Size 1%positive st_revoked = Returns 3%Z st_revoked
  ∧ ∃ s0, newReadLease 5%Z 1%positive (Some 9%positive) st_valid = Returns 2%positive s0
          ∧ Forall (λ s', Size 2%positive s' = Returns 5%Z s')
              (s0 :: run (file_layer := memfs)
                       [OpRead 2%positive []; OpRelease 2%positive; OpSeek 2%positive 0%Z 0%Z] s0).
Proof.
  split; [reflexivity|]. split.
  { exact (proj1 (Size_is_fixed_at_creation (file_layer := memfs) st_revoked 1%positive)
             lease_revoked eq_refl). }
  eexists. split; [reflexivity|].
  exact (proj2 (proj2 (Size_is_fixed_at_creation (file_layer := memfs) st_valid 2%positive))
           5%Z 1%positive (Some 9%positive) _ _ eq_refl).
Defined.

Lemma locks_free_st_empty : locks_free st_empty.
Proof.
  split; intros k v Hkv; cbn [st_empty leases leasers] in Hkv.
  - by rewrite lookup_empty in Hkv.
  - apply lookup_singleton_Some in Hkv as [_ <-]. reflexivity.
Defined.

Lemma Upgrade_succeeds_once_witness :
  leases st_empty = ∅
  ∧ locks_free st_empty
  ∧ ∃ s1 s2 s3 rwl s',
      pool_run (file_layer := memfs) pool_calls st_empty = [s1; s2; s3]
      ∧ leases s2 !! 1%positive = Some lease_valid
      ∧ Upgrade 1%positive s2 = Returns (Some rwl, None) s'
      ∧ rwl_file rwl = Some 7%positive
      ∧ revoked 1%positive s' = Returns true s'
      ∧ ∃ s'', Upgrade 1%positive s' = Returns (None, Some RevokedError) s''.
Proof.
  split; [reflexivity|]. split; [exact locks_free_st_empty|].
  pose proof (Upgrade_succeeds_once (file_layer := memfs) pool_calls st_empty
                eq_refl locks_free_st_empty) as Hall.
  assert (∃ s1 s2 s3, pool_run (file_layer := memfs) pool_calls st_empty = [s1; s2; s3]
                      ∧ leases s2 !! 1%positive = Some lease_valid)
    as (s1 & s2 & s3 & Hrun & Hl2).
  { eexists _, _, _. split; vm_compute; reflexivity. }
  rewrite Hrun in Hall.
  apply Forall_cons_1 in Hall as [_ Hall].
  apply Forall_cons_1 in Hall as [_ Hall].
  apply Forall_cons_1 in Hall as [H2 _].
  destruct (proj2 (H2 1%positive lease_valid Hl2) 7%positive eq_refl)
    as (rwl & s' & Hup & Hfile & Hrev & _ & s'' & Hagain & _).
  exists s1, s2, s3, rwl, s'.
  split; [exact Hrun|]. split; [exact Hl2|]. split; [exact Hup|].
  split; [exact Hfile|]. split; [exact Hrev|]. exists s''. exact Hagain.
Defined.

Lemma Revoked_reports_state_witness :
  leases st_valid !! 1%positive = Some lease_valid
  ∧ rl_Mu lease_valid = false
  ∧ ∃ b s', Revoked 1%positive st_valid = Returns b s'
            ∧ (b = true ↔ rl_file lease_valid = None)
            ∧ revoked 1%positive st_valid = Returns b st_valid
            ∧ leases s' = leases st_valid ∧ leasers s' = leasers st_valid
            ∧ fs s' = fs st_valid
            ∧ new_events st_valid s'
              = [EvLock (LeaseMu 1%positive); EvUnlock (LeaseMu 1%positive)].
Proof.
  split; [reflexivity|]. split; [reflexivity|].
  exact (Revoked_reports_state st_valid 1%positive lease_valid eq_refl eq_refl).
Defined.

Lemma readers_promote_exactly_once_witness :
  leases st_revoked !! 1%positive = Some lease_revoked
  ∧ filter (λ e, is_promote_event e = true)
      (new_events st_revoked
         (final (Read (file_layer := memfs) 1%positive [x00]%byte st_revoked)))
    = [EvPromote 1%positive 1%positive].
Proof.
  split; [reflexivity|].
  exact (proj1 (readers_promote_exactly_once (file_layer := memfs) st_revoked
                  1%positive lease_revoked [x00]%byte 0%Z eq_refl)).
Defined.

Lemma reading_calls_preserve_leases_witness :
  leases st_valid !! 1%positive = Some lease_valid
  ∧ Forall (λ o, is_reading o = true) reading_ops
  ∧ Forall (λ s', leases s' !! 1%positive = Some lease_valid)
      (run (file_layer := memfs) reading_ops st_valid).
Proof.
  assert (Forall (λ o, is_reading o = true) reading_ops) as Hops
    by (repeat constructor).
  split; [reflexivity|]. split; [exact Hops|].
  exact (reading_calls_preserve_leases (file_layer := memfs) reading_ops st_valid
           1%positive lease_valid eq_refl Hops).
Defined.

Lemma calls_on_nil_lease_panic_witness :
  leases st_valid !! 5%positive = None
  ∧ Seek (file_layer := memfs) 5%positive 0%Z 0%Z st_valid = Panics nil_deref st_valid.
Proof.
  split; [reflexivity|].
  exact (proj1 (proj2 (calls_on_nil_lease_panic (file_layer := memfs) st_valid
                  5%positive [x00]%byte 0%Z 0%Z 0%Z eq_refl))).
Defined.

Lemma release_then_calls_witness :
  callable st_valid 1%positive lease_valid
  ∧ rl_file lease_valid = Some 7%positive
  ∧ ∃ s1, release 1%positive st_valid = Returns (Some 7%positive) s1
          ∧ (∃ s2, Seek (file_layer := memfs) 1%positive 2%Z 0%Z s1
                   = Returns (0%Z, Some RevokedError) s2
                   ∧ no_file_io st_valid s2)
          ∧ release 1%positive s1 = Panics "Already revoked" s1.
Proof.
  split; [exact callable_st_valid|]. split; [reflexivity|].
  destruct (release_then_calls (file_layer := memfs) st_valid 1%positive lease_valid
              7%positive [x00]%byte 2%Z 0%Z 0%Z callable_st_valid eq_refl)
    as (s1 & Hrel & _ & Hseek & _ & _ & _ & Hagain).
  exists s1. split; [exact Hrel|]. split; [exact Hseek|exact Hagain].
Defined.

Lemma Seek_then_Read_thread_the_file_witness :
  callable st_valid 1%positive lease_valid
  ∧ rl_file lease_valid = Some 7%positive
  ∧ ∃ s1 s2,
      Seek (file_layer := memfs) 1%positive 1%Z 0%Z st_valid = Returns (1%Z, None) s1
      ∧ Read (file_layer := memfs) 1%positive [x00; x00; x00]%byte s1
        = Returns ([x62; x63; x00]%byte, 2%Z, None) s2
      ∧ filter (λ e, is_file_event e = true) (new_events st_valid s2)
        = [EvFileSeek 7%positive; EvFileRead 7%positive].
Proof.
  split; [exact callable_st_valid|]. split; [reflexivity|].
  destruct (Seek_then_Read_thread_the_file (file_layer := memfs) st_valid 1%positive
              lease_valid 7%positive [x00; x00; x00]%byte 1%Z 0%Z
              callable_st_valid eq_refl)
    as (s1 & s2 & Hseek & Hread & _ & Hev & _).
  exists s1, s2. split; [exact Hseek|]. split; [exact Hread|exact Hev].
Defined.

Lemma locks_free_st_valid : locks_free st_valid.
Proof.
  split; intros k v Hkv; cbn [st_valid leases leasers] in Hkv;
    apply lookup_singleton_Some in Hkv as [_ <-]; reflexivity.
Defined.

Lemma calls_never_leave_a_lock_held_witness :
  locks_free st_valid
  ∧ blocked (file_layer := memfs) sample_ops st_valid = false
  ∧ Forall locks_free (run (file_layer := memfs) sample_ops st_valid).
Proof.
  split; [exact locks_free_st_valid|].
  exact (calls_never_leave_a_lock_held (file_layer := memfs) sample_ops st_valid
           locks_free_st_valid).
Defined.

Lemma held_lease_lock_blocks_readers_witness :
  leases st_held !! 1%positive
  = Some (mkReadLease true 3%Z 1%positive (Some 7%positive))
  ∧ Seek (file_layer := memfs) 1%positive 0%Z 0%Z st_held = Blocks st_held
  ∧ no_file_io st_held (final (Read (file_layer := memfs) 1%positive [x00]%byte st_held))
  ∧ Size 1%positive st_held = Returns 3%Z st_held.
Proof.
  split; [reflexivity|].
  destruct (held_lease_lock_blocks_readers (file_layer := memfs) st_held 1%positive
              (mkReadLease true 3%Z 1%positive (Some 7%positive))
              [x00]%byte 0%Z 0%Z 0%Z eq_refl eq_refl)
    as (Hseek & _ & _ & _ & Hio & _ & Hsize).
  split; [exact Hseek|]. split; [exact Hio|exact Hsize].
Defined.
